(** * go-osc: the OSC 1.0 codec and address-pattern dispatcher

    A shallow embedding of the Go package [osc] (argument.go, message.go,
    bundle.go, address_space.go) together with the properties of its wire
    codec and of its pattern matcher.

    Conventions of the embedding
    - a Go [[]byte] and a Go [string] are both [list byte]; a [nil] slice
      and an empty slice are both the empty list;
    - a [*bytes.Buffer] is the list of its unread bytes, threaded
      explicitly through every reader;
    - a Go call has three possible outcomes: a value with a [nil] error, a
      non-[nil] error, or a run-time panic; [result] keeps them apart;
    - fixed-width integers are [Z] with the wrap-around written out;
      [float32]/[float64] values are carried by their IEEE-754 bit pattern,
      which is all that [binary.Write]/[binary.Read] look at;
    - Go's [int] is 64 bits wide and only ever holds slice lengths here, so
      it is an unbounded [Z]. *)

From Stdlib Require Import Strings.Byte Strings.String.
From Stdlib Require Import ZArith List Lia Bool.
Import ListNotations.
Open Scope Z_scope.

Set Implicit Arguments.

(* ================================================================== *)
(** * Outcomes of a Go call *)

(** Go [error] values that the package produces or forwards. *)
Inductive error : Type :=
| EOF                          (* io.EOF *)
| ErrUnexpectedEOF             (* io.ErrUnexpectedEOF *)
| Errorf (msg : string)        (* fmt.Errorf / errors.New *)
| ErrRegexp.                   (* *syntax.Error from regexp.Compile *)

(** Run-time panics that the package can raise. *)
Inductive panic : Type :=
| NilDereference               (* method call through a nil interface *)
| SliceBoundsOutOfRange        (* s[:n] with n outside 0..cap(s) *)
| MakeSliceLenOutOfRange       (* make([]byte, n) with n < 0 *)
| IndexOutOfRange.             (* s[i] with i outside 0..len(s)-1 *)

Inductive result (A : Type) : Type :=
| Ok (a : A)
| Err (e : error)
| Panic (p : panic).

Arguments Ok {A} a.
Arguments Err {A} e.
Arguments Panic {A} p.

Definition bind {A B} (r : result A) (k : A -> result B) : result B :=
  match r with
  | Ok a => k a
  | Err e => Err e
  | Panic p => Panic p
  end.

Definition rmap {A B} (f : A -> B) (r : result A) : result B :=
  bind r (fun a => Ok (f a)).

Declare Scope go_scope.
Delimit Scope go_scope with go.
Notation "x <- c ;; k" := (bind c (fun x => k))
  (at level 61, c at next level, right associativity) : go_scope.
Notation "' p <- c ;; k" := (bind c (fun x => let 'p := x in k))
  (at level 61, p pattern, c at next level, right associativity) : go_scope.
Open Scope go_scope.

Definition is_ok {A} (r : result A) : bool :=
  match r with Ok _ => true | _ => false end.
Definition is_err {A} (r : result A) : bool :=
  match r with Err _ => true | _ => false end.
Definition is_panic {A} (r : result A) : bool :=
  match r with Panic _ => true | _ => false end.

(* ================================================================== *)
(** * Bytes, strings and fixed-width integers *)

Definition gostring := list byte.

(** A Go string literal. *)
Definition str (s : string) : gostring := list_byte_of_string s.

Definition byte_to_Z (b : byte) : Z := Z.of_N (Byte.to_N b).

Definition byte_of_Z (z : Z) : byte :=
  match Byte.of_N (Z.to_N (z mod 256)) with
  | Some b => b
  | None => x00
  end.

(** Conversion to an unsigned, resp. signed, [w]-bit integer. *)
Definition wrap_u (w : Z) (z : Z) : Z := z mod 2 ^ w.
Definition wrap_s (w : Z) (z : Z) : Z :=
  (z + 2 ^ (w - 1)) mod 2 ^ w - 2 ^ (w - 1).

(** [x &^ y] *)
Definition and_not (x y : Z) : Z := Z.ldiff x y.

(** [binary.BigEndian]: the unsigned value of a byte sequence, and the
    [k] low-order bytes of an integer, most significant first. *)
Fixpoint be_acc (acc : Z) (bs : list byte) : Z :=
  match bs with
  | [] => acc
  | b :: bs' => be_acc (acc * 256 + byte_to_Z b) bs'
  end.

Definition be_uint (bs : list byte) : Z := be_acc 0 bs.

Fixpoint be_bytes (k : nat) (z : Z) : list byte :=
  match k with
  | O => []
  | S k' => byte_of_Z (z / 256 ^ Z.of_nat k') :: be_bytes k' z
  end.

Definition len {A} (l : list A) : Z := Z.of_nat (length l).

(* ================================================================== *)
(** * The standard-library readers the codec is written against *)

Module strings.

Definition mem (b : byte) (cutset : list byte) : bool :=
  existsb (Byte.eqb b) cutset.

Fixpoint TrimLeft (s cutset : gostring) : gostring :=
  match s with
  | [] => []
  | b :: s' => if mem b cutset then TrimLeft s' cutset else s
  end.

Definition TrimRight (s cutset : gostring) : gostring :=
  rev (TrimLeft (rev s) cutset).

(** [strings.Trim(s, cutset)]: [s] without the leading and trailing
    bytes that occur in [cutset]. *)
Definition Trim (s cutset : gostring) : gostring :=
  TrimRight (TrimLeft s cutset) cutset.

Fixpoint HasPrefix (s pre : gostring) : bool :=
  match pre, s with
  | [], _ => true
  | p :: pre', b :: s' => Byte.eqb p b && HasPrefix s' pre'
  | _ :: _, [] => false
  end.

(** [strings.Replace(s, old, new, -1)] for a non-empty [old]: the
    non-overlapping occurrences of [old], found left to right, are
    replaced by [new]. *)
Fixpoint replace_from (fuel : nat) (s old new : gostring) : gostring :=
  match fuel with
  | O => s
  | S fuel' =>
      match s with
      | [] => []
      | b :: s' =>
          if HasPrefix s old
          then new ++ replace_from fuel' (skipn (length old) s) old new
          else b :: replace_from fuel' s' old new
      end
  end.

Definition Replace (s old new : gostring) : gostring :=
  replace_from (length s) s old new.

End strings.

Module Buffer.

(** The unread portion of a [bytes.Buffer]. *)
Definition t := list byte.

Definition NewBuffer (data : list byte) : t := data.

(** [ReadString(delim)]: the bytes up to and including the first
    [delim]; when the buffer ends first, what was read and [io.EOF]. *)
Fixpoint ReadString (delim : byte) (buf : t)
  : (gostring * option error) * t :=
  match buf with
  | [] => (([], Some EOF), [])
  | b :: rest =>
      if Byte.eqb b delim then (([b], None), rest)
      else let '((s, e), r) := ReadString delim rest in ((b :: s, e), r)
  end.

(** [ReadByte()]: on an empty buffer the byte returned is 0 and the
    error is [io.EOF]. *)
Definition ReadByte (buf : t) : (byte * option error) * t :=
  match buf with
  | [] => ((x00, Some EOF), [])
  | b :: rest => ((b, None), rest)
  end.

(** [Read(p)] for a freshly made [p] of length [n]: the contents of [p]
    after the call, the count of bytes copied and the error. An empty
    buffer gives [io.EOF] unless [n] is 0. *)
Definition Read (n : nat) (buf : t)
  : (list byte * Z * option error) * t :=
  match buf with
  | [] =>
      if Nat.eqb n 0 then (([], 0, None), [])
      else ((repeat x00 n, 0, Some EOF), [])
  | _ :: _ =>
      ((firstn n buf ++ repeat x00 (n - length buf),
        Z.of_nat (Nat.min n (length buf)), None),
       skipn n buf)
  end.

End Buffer.

Module binary.

(** [io.ReadFull] of [k > 0] bytes, as [binary.Read] performs it on a
    fixed-size value: [io.EOF] when nothing could be read,
    [io.ErrUnexpectedEOF] when the buffer ends part-way. *)
Definition ReadFull (k : nat) (buf : Buffer.t)
  : result (list byte * Buffer.t) :=
  if Nat.leb k (length buf) then Ok (firstn k buf, skipn k buf)
  else match buf with
       | [] => Err EOF
       | _ :: _ => Err ErrUnexpectedEOF
       end.

Definition ReadUint32 (buf : Buffer.t) : result (Z * Buffer.t) :=
  '(bs, buf') <- ReadFull 4 buf ;; Ok (be_uint bs, buf').

Definition ReadInt32 (buf : Buffer.t) : result (Z * Buffer.t) :=
  '(bs, buf') <- ReadFull 4 buf ;; Ok (wrap_s 32 (be_uint bs), buf').

Definition ReadUint64 (buf : Buffer.t) : result (Z * Buffer.t) :=
  '(bs, buf') <- ReadFull 8 buf ;; Ok (be_uint bs, buf').

Definition ReadInt64 (buf : Buffer.t) : result (Z * Buffer.t) :=
  '(bs, buf') <- ReadFull 8 buf ;; Ok (wrap_s 64 (be_uint bs), buf').

(** [binary.Write(buf, binary.BigEndian, v)] for a 32- and a 64-bit [v]:
    the bytes appended. *)
Definition Write32 (v : Z) : list byte := be_bytes 4 v.
Definition Write64 (v : Z) : list byte := be_bytes 8 v.

End binary.

(* ================================================================== *)
(** * argument.go: wire primitives *)

(** The [for i >= 0 { data = append(data, 0); i-- }] loop of
    [padTo32Bits], [n] being the number of iterations left. *)
Fixpoint padLoop (n : nat) (data : list byte) : list byte :=
  match n with
  | O => data
  | S n' => padLoop n' (data ++ [x00])
  end.

Definition padTo32Bits (data : list byte) : list byte :=
  let origLength := len data in
  let padLength := and_not (origLength + 3) 3 in
  let i := padLength - origLength - 1 in
  padLoop (Z.to_nat (i + 1)) data.

Definition encodeString (s : gostring) : list byte :=
  let nullTerminated := s ++ [x00] in
  padTo32Bits nullTerminated.

(** The [for toPop > 0] loop of [decodeString]. The error of [ReadByte]
    is only looked at, through [err.Error()], once the byte read is known
    not to be 0. *)
Fixpoint popPadding (toPop : nat) (buf : Buffer.t)
  : result (unit * Buffer.t) :=
  match toPop with
  | O => Ok (tt, buf)
  | S toPop' =>
      let '((b, err), buf') := Buffer.ReadByte buf in
      if negb (Byte.eqb b x00) then
        match err with
        | Some _ => Err (Errorf "Found a malformed OSC string")
        | None => Panic NilDereference
        end
      else popPadding toPop' buf'
  end.

Definition decodeString (buf : Buffer.t) : result (gostring * Buffer.t) :=
  let '((stringNullTerm, err), buf) := Buffer.ReadString x00 buf in
  match err with
  | Some e => Err e
  | None =>
      let str := strings.Trim stringNullTerm [x00] in
      let stringLength := len stringNullTerm in
      let paddedLength := and_not (stringLength + 3) 3 in
      let toPop := paddedLength - stringLength in
      '(_, buf) <- popPadding (Z.to_nat toPop) buf ;;
      Ok (str, buf)
  end.

(* ================================================================== *)
(** * time.Time, as far as the codec uses it *)

Module time.

Inductive Location : Type := UTC | Local.

(** A [time.Time] without monotonic clock reading: seconds since the
    Unix epoch, nanoseconds within the second, and the location. *)
Record Time : Type := mkTime { sec : Z; nsec : Z; loc : Location }.

(** The zero [Time{}]: January 1, year 1, 00:00:00 UTC. *)
Definition zero : Time := mkTime (-62135596800) 0 UTC.

(** [t.Unix()] *)
Definition Unix_of (t : Time) : Z := sec t.

(** [t.UnixNano()], an [int64] *)
Definition UnixNano (t : Time) : Z :=
  wrap_s 64 (sec t * 1000000000 + nsec t).

(** [time.Unix(sec, nsec)]: [nsec] outside [0, 1e9) is carried into
    [sec]; the result is in the local location. *)
Definition Unix (sec nsec : Z) : Time :=
  if (nsec <? 0) || (1000000000 <=? nsec) then
    let n := Z.quot nsec 1000000000 in
    let sec := wrap_s 64 (sec + n) in
    let nsec := nsec - n * 1000000000 in
    if nsec <? 0 then mkTime (wrap_s 64 (sec - 1)) (nsec + 1000000000) Local
    else mkTime sec nsec Local
  else mkTime sec nsec Local.

(** [t.In(loc)] *)
Definition In (t : Time) (l : Location) : Time :=
  mkTime (sec t) (nsec t) l.

End time.

(* ================================================================== *)
(** * argument.go: time tags and arguments *)

Definition unixOSCEpochOffset : Z := 2208988800.
Definition nanosPerSecond : Z := 1000000000.
Definition timeTagImmediate : Z := 1.

Record TimeTag : Type := mkTimeTag { tt_time : time.Time; Immediate : bool }.

Definition NewTimeTag (t : time.Time) : TimeTag := mkTimeTag t false.

Definition NewImmediateTimeTag : TimeTag := mkTimeTag time.zero true.

(** A value of type [interface{}] held in [Message.Arguments]; [ArgOther]
    stands for a value of any type outside the supported ones. *)
Inductive Argument : Type :=
| ArgNil
| ArgInt32 (v : Z)
| ArgFloat32 (bits : Z)
| ArgString (s : gostring)
| ArgBytes (b : list byte)
| ArgBool (b : bool)
| ArgInt64 (v : Z)
| ArgFloat64 (bits : Z)
| ArgTimeTag (timeTag : TimeTag)
| ArgOther.

Definition typeTag (argument : Argument) : result gostring :=
  match argument with
  | ArgNil => Ok (str "N")
  | ArgInt32 _ => Ok (str "i")
  | ArgFloat32 _ => Ok (str "f")
  | ArgString _ => Ok (str "s")
  | ArgBytes _ => Ok (str "b")
  | ArgBool val => if val then Ok (str "T") else Ok (str "F")
  | ArgInt64 _ => Ok (str "h")
  | ArgFloat64 _ => Ok (str "d")
  | ArgTimeTag _ => Ok (str "t")
  | ArgOther => Err (Errorf "Unsupported type")
  end.

Definition encodeByteSlice (data : list byte) : list byte :=
  let n := wrap_s 32 (len data) in
  padTo32Bits (binary.Write32 n ++ data).

Definition encodeTimeTag (tt : TimeTag) : list byte :=
  let timeTag64 :=
    if Immediate tt then timeTagImmediate
    else
      let timeOSCSecs :=
        wrap_u 64 (wrap_s 64 (time.Unix_of (tt_time tt) + unixOSCEpochOffset)) in
      let timeOSCNanos :=
        wrap_u 64
          (wrap_u 64 (wrap_s 64 (time.UnixNano (tt_time tt)
                                 + unixOSCEpochOffset * nanosPerSecond))
           - wrap_u 64 (timeOSCSecs * nanosPerSecond)) in
      Z.lor (wrap_u 64 (Z.shiftl timeOSCSecs 32))
            (Z.land timeOSCNanos 0xFFFFFFFF)
  in
  binary.Write64 timeTag64.

(** The [if timeTag64 == timeTagImmediate { ... } else { ... }] of
    [decodeTimeTag]: the time tag that a 64-bit value stands for. *)
Definition timeTagOfUint64 (timeTag64 : Z) : TimeTag :=
  if timeTag64 =? timeTagImmediate then NewImmediateTimeTag
  else
    let seconds :=
      wrap_s 64 (wrap_s 64 (Z.shiftr timeTag64 32) - unixOSCEpochOffset) in
    let nanoSeconds := wrap_s 64 (Z.land timeTag64 0xFFFFFFFF) in
    let t := time.In (time.Unix seconds nanoSeconds) time.UTC in
    NewTimeTag t.

Definition decodeTimeTag (buf : Buffer.t) : result (TimeTag * Buffer.t) :=
  '(timeTag64, buf) <- binary.ReadUint64 buf ;;
  let timeTag := timeTagOfUint64 timeTag64 in
  Ok (timeTag, buf).

Definition decodeByteSlice (buf : Buffer.t) : result (list byte * Buffer.t) :=
  '(n, buf) <- binary.ReadInt32 buf ;;
  if n =? 0 then Ok ([], buf)
  else
    let nExpected := and_not (wrap_s 32 (n + 3)) 3 in
    if nExpected <? 0 then Panic MakeSliceLenOutOfRange
    else
      let '((data, nRead, err), buf) :=
        Buffer.Read (Z.to_nat nExpected) buf in
      match err with
      | Some e => Err e
      | None =>
          if negb (nRead =? nExpected)
          then Err (Errorf "Didn't read expected number of bytes")
          else if (n <? 0) || (nExpected <? n)
               then Panic SliceBoundsOutOfRange
               else Ok (firstn (Z.to_nat n) data, buf)
      end.

Definition encodeArgument (argument : Argument) : result (list byte) :=
  match argument with
  | ArgNil => Ok []
  | ArgInt32 v => Ok (binary.Write32 v)
  | ArgFloat32 bits => Ok (binary.Write32 bits)
  | ArgString s => Ok (encodeString s)
  | ArgBytes b => Ok (encodeByteSlice b)
  | ArgBool _ => Ok []
  | ArgInt64 v => Ok (binary.Write64 v)
  | ArgFloat64 bits => Ok (binary.Write64 bits)
  | ArgTimeTag timeTag => Ok (encodeTimeTag timeTag)
  | ArgOther => Err (Errorf "Unsupported argument type")
  end.

(** The [switch typeTag] of [readArguments]: the value appended to [args]
    and the error left in [err]. *)
Definition readArgument (typeTag : byte) (buf : Buffer.t)
  : result (Argument * Buffer.t) :=
  match typeTag with
  | "T"%byte => Ok (ArgBool true, buf)
  | "F"%byte => Ok (ArgBool true, buf)
  | "N"%byte => Ok (ArgNil, buf)
  | "i"%byte => '(val, buf) <- binary.ReadInt32 buf ;; Ok (ArgInt32 val, buf)
  | "f"%byte => '(val, buf) <- binary.ReadUint32 buf ;; Ok (ArgFloat32 val, buf)
  | "s"%byte => '(val, buf) <- decodeString buf ;; Ok (ArgString val, buf)
  | "b"%byte => '(val, buf) <- decodeByteSlice buf ;; Ok (ArgBytes val, buf)
  | "h"%byte => '(val, buf) <- binary.ReadInt64 buf ;; Ok (ArgInt64 val, buf)
  | "d"%byte => '(val, buf) <- binary.ReadUint64 buf ;; Ok (ArgFloat64 val, buf)
  | "t"%byte => '(val, buf) <- decodeTimeTag buf ;; Ok (ArgTimeTag val, buf)
  | _ => Err (Errorf "Found unsupported argument type")
  end.

(** The [for _, typeTag := range typeTagString[1:]] loop. The tags are
    visited byte by byte: a byte of 0x80 or above belongs to a rune (or to
    an invalid encoding, read as U+FFFD) that is none of the ten tags, so
    the loop returns at that byte in either reading. *)
Fixpoint readArgumentsLoop (tags : gostring) (buf : Buffer.t)
         (args : list Argument) : result (list Argument * Buffer.t) :=
  match tags with
  | [] => Ok (args, buf)
  | typeTag :: tags' =>
      match readArgument typeTag buf with
      | Ok (val, buf') => readArgumentsLoop tags' buf' (args ++ [val])
      | Err _ => Err (Errorf "Found malformed argument")
      | Panic p => Panic p
      end
  end.

Definition readArguments (typeTagString : gostring) (buf : Buffer.t)
  : result (list Argument * Buffer.t) :=
  match typeTagString with
  | [] => Panic SliceBoundsOutOfRange          (* typeTagString[:1] *)
  | first :: rest =>
      if negb (Byte.eqb first ","%byte)
      then Err (Errorf "Malformed type tag string")
      else readArgumentsLoop rest buf []
  end.

(* ================================================================== *)
(** * message.go *)

Record Message : Type := mkMessage {
  Address : gostring;
  Arguments : list Argument
}.

Definition NewMessage (address : gostring) : Message := mkMessage address [].

Definition NewEmptyMessage : Message := NewMessage (str "/").

(** A method with a pointer receiver returns the receiver after the call
    next to its outcome. *)
Definition Message_AddArgument (msg : Message) (arg : Argument)
  : Message * result unit :=
  match typeTag arg with
  | Ok _ => (mkMessage (Address msg) (Arguments msg ++ [arg]), Ok tt)
  | Err _ => (msg, Err (Errorf "Argument type not supported"))
  | Panic p => (msg, Panic p)
  end.

Fixpoint typeTagStringLoop (args : list Argument) (typeTagString : gostring)
  : result gostring :=
  match args with
  | [] => Ok typeTagString
  | arg :: args' =>
      tag <- typeTag arg ;;
      typeTagStringLoop args' (typeTagString ++ tag)
  end.

Definition Message_TypeTagString (msg : Message) : result gostring :=
  typeTagStringLoop (Arguments msg) (str ",").

Fixpoint marshalArgumentsLoop (args : list Argument) (buf : list byte)
  : result (list byte) :=
  match args with
  | [] => Ok buf
  | arg :: args' =>
      argData <- encodeArgument arg ;;
      marshalArgumentsLoop args' (buf ++ argData)
  end.

Definition Message_MarshalBinary (msg : Message) : result (list byte) :=
  let buf := encodeString (Address msg) in
  typeTagString <- Message_TypeTagString msg ;;
  let buf := buf ++ encodeString typeTagString in
  marshalArgumentsLoop (Arguments msg) buf.

(** message.go: the receiver is assigned only after all three decoders
    have succeeded. *)
Definition Message_UnmarshalBinary (msg : Message) (data : list byte)
  : Message * result unit :=
  let buf := Buffer.NewBuffer data in
  match decodeString buf with
  | Err e => (msg, Err e)
  | Panic p => (msg, Panic p)
  | Ok (address, buf) =>
      match decodeString buf with
      | Err e => (msg, Err e)
      | Panic p => (msg, Panic p)
      | Ok (typeTagString, buf) =>
          match readArguments typeTagString buf with
          | Err e => (msg, Err e)
          | Panic p => (msg, Panic p)
          | Ok (args, _) => (mkMessage address args, Ok tt)
          end
      end
  end.

(** The earlier message.go: the address is stored as soon as it is
    decoded, and the message built so far is returned next to the error. *)
Definition NewMessageFromData (data : list byte) : Message * result unit :=
  let msg := mkMessage [] [] in
  let buf := Buffer.NewBuffer data in
  match decodeString buf with
  | Err e => (msg, Err e)
  | Panic p => (msg, Panic p)
  | Ok (address, buf) =>
      let msg := mkMessage address (Arguments msg) in
      match decodeString buf with
      | Err e => (msg, Err e)
      | Panic p => (msg, Panic p)
      | Ok (typeTagString, buf) =>
          match readArguments typeTagString buf with
          | Err e => (msg, Err e)
          | Panic p => (msg, Panic p)
          | Ok (args, _) => (mkMessage (Address msg) args, Ok tt)
          end
      end
  end.

(** [reflect.DeepEqual] on argument lists is structural equality here. *)
Definition Message_Equals (msg other : Message) : Prop :=
  Address msg = Address other /\ Arguments msg = Arguments other.

(* ================================================================== *)
(** * bundle.go *)

Definition bundleString : list byte := str "#bundle" ++ [x00].

Inductive Packet : Type :=
| PMessage (m : Message)
| PBundle (b : Bundle)
with Bundle : Type :=
| mkBundle (timeTag : TimeTag) (elements : list Packet).

Definition Bundle_TimeTag (bun : Bundle) : TimeTag :=
  let 'mkBundle timeTag _ := bun in timeTag.

Definition Elements (bun : Bundle) : list Packet :=
  let 'mkBundle _ elements := bun in elements.

Definition NewBundle : Bundle := mkBundle (mkTimeTag time.zero true) [].

Definition Bundle_AddPacket (bun : Bundle) (p : Packet) : Bundle :=
  mkBundle (Bundle_TimeTag bun) (Elements bun ++ [p]).

Fixpoint eqb_bytes (s1 s2 : list byte) : bool :=
  match s1, s2 with
  | [], [] => true
  | b1 :: s1', b2 :: s2' => Byte.eqb b1 b2 && eqb_bytes s1' s2'
  | _, _ => false
  end.

(** [Bundle.MarshalBinary] and the [MarshalBinary] of the packets it
    holds. *)
Fixpoint Packet_MarshalBinary (p : Packet) : result (list byte) :=
  match p with
  | PMessage m => Message_MarshalBinary m
  | PBundle (mkBundle timeTag elements) =>
      let buf := bundleString ++ encodeTimeTag timeTag in
      (fix marshalElements (es : list Packet) (buf : list byte)
         : result (list byte) :=
         match es with
         | [] => Ok buf
         | e :: es' =>
             encoded <- Packet_MarshalBinary e ;;
             let count := wrap_u 32 (len encoded) in
             marshalElements es' (buf ++ binary.Write32 count ++ encoded)
         end) elements buf
  end.

Definition Bundle_MarshalBinary (bun : Bundle) : result (list byte) :=
  Packet_MarshalBinary (PBundle bun).

(** [Bundle.UnmarshalBinary] and [decodePacket] call each other. The
    functions below take the decoder of child packets as [decodePacket_rec];
    [None] says that the recursion budget of a decoder was used up, which
    [decodePacket_fuel_enough] shows never to happen to [decodePacket]. *)
Section BundleDecode.

Variable decodePacket_rec : list byte -> option (result Packet).

(** The [for { ... }] loop reading the bundle's contents; [fuel] bounds
    the number of iterations. *)
Fixpoint unmarshalLoop (fuel : nat) (buf : Buffer.t)
         (elements : list Packet) : option (result (list Packet)) :=
  match fuel with
  | O => None
  | S fuel' =>
      match binary.ReadUint32 buf with
      | Err EOF => Some (Ok elements)                       (* break *)
      | Err e => Some (Err e)
      | Panic p => Some (Panic p)
      | Ok (count, buf) =>
          let '((packetData, n, err), buf) :=
            Buffer.Read (Z.to_nat count) buf in
          match err with
          | Some _ => Some (Err (Errorf "Malformed bundle"))
          | None =>
              if negb (wrap_u 32 n =? count)
              then Some (Err (Errorf "Malformed bundle"))
              else
                match decodePacket_rec packetData with
                | None => None
                | Some (Ok p) => unmarshalLoop fuel' buf (elements ++ [p])
                | Some (Err e) => Some (Err e)
                | Some (Panic p) => Some (Panic p)
                end
          end
      end
  end.

(** The receiver is assigned only after the loop has ended normally. *)
Definition Bundle_UnmarshalBinary_rec (bun : Bundle) (data : list byte)
  : option (Bundle * result unit) :=
  let buf := Buffer.NewBuffer data in
  match decodeString buf with
  | Err e => Some (bun, Err e)
  | Panic p => Some (bun, Panic p)
  | Ok (identifier, buf) =>
      if negb (eqb_bytes identifier (str "#bundle"))
      then Some (bun, Err (Errorf "Malformed bundle"))
      else
        match decodeTimeTag buf with
        | Err e => Some (bun, Err e)
        | Panic p => Some (bun, Panic p)
        | Ok (timeTag, buf) =>
            match unmarshalLoop (S (length buf)) buf [] with
            | None => None
            | Some (Ok elements) => Some (mkBundle timeTag elements, Ok tt)
            | Some (Err e) => Some (bun, Err e)
            | Some (Panic p) => Some (bun, Panic p)
            end
        end
  end.

Definition NewBundleFromData_rec (data : list byte)
  : option (Bundle * result unit) :=
  let bundle := NewBundle in
  Bundle_UnmarshalBinary_rec bundle data.

Definition decodePacket_body (data : list byte) : option (result Packet) :=
  let lenData := len data in
  if (lenData <=? 0) || negb (Z.rem lenData 4 =? 0)
  then Some (Err (Errorf "Packet data is not a multiple of 4 bytes"))
  else
    match data with
    | [] => Some (Panic IndexOutOfRange)                    (* data[0] *)
    | firstChar :: _ =>
        if Byte.eqb firstChar "/"%byte then
          match NewMessageFromData data with
          | (p, Ok _) => Some (Ok (PMessage p))
          | (_, Err e) => Some (Err e)
          | (_, Panic pn) => Some (Panic pn)
          end
        else if Byte.eqb firstChar "#"%byte then
          match NewBundleFromData_rec data with
          | None => None
          | Some (p, Ok _) => Some (Ok (PBundle p))
          | Some (_, Err e) => Some (Err e)
          | Some (_, Panic pn) => Some (Panic pn)
          end
        else Some (Err (Errorf "Malformed packet"))
    end.

End BundleDecode.

Fixpoint decodePacket_fuel (fuel : nat) (data : list byte)
  : option (result Packet) :=
  match fuel with
  | O => None
  | S fuel' => decodePacket_body (decodePacket_fuel fuel') data
  end.

(** A child packet is strictly shorter than the bundle it is read from,
    so a budget of one more than the length of the data is never used
    up. *)
Definition run {A} (default : A) (o : option A) : A :=
  match o with Some a => a | None => default end.

Definition decodePacket (data : list byte) : result Packet :=
  run (Err (Errorf "recursion budget used up"))
      (decodePacket_fuel (S (length data)) data).

Definition Bundle_UnmarshalBinary (bun : Bundle) (data : list byte)
  : Bundle * result unit :=
  run (bun, Err (Errorf "recursion budget used up"))
      (Bundle_UnmarshalBinary_rec (decodePacket_fuel (length data)) bun data).

Definition NewBundleFromData (data : list byte) : Bundle * result unit :=
  let bundle := NewBundle in
  Bundle_UnmarshalBinary bundle data.

(* ================================================================== *)
(** * The fragment of package regexp that address patterns reach *)

Module regexp.

(** Regular expressions over bytes. Addresses and patterns of OSC 1.0
    are ASCII, where a rune is a byte. *)
Inductive Regexp : Type :=
| Empty                                        (* the empty string *)
| Lit (b : byte)
| AnyNotNL                                     (* [.] *)
| Class (negated : bool) (ranges : list (byte * byte))
| Cat (r1 r2 : Regexp)
| Alt (r1 r2 : Regexp)
| Star (r : Regexp).

(** Outcome of parsing: a regular expression, a syntax error, or a
    construct outside the modelled fragment (anchors, flags, counted
    repetition, Perl classes, non-ASCII bytes). *)
Inductive parsed (A : Type) : Type :=
| Parsed (a : A)
| SyntaxError
| Unsupported.
Arguments Parsed {A} a.
Arguments SyntaxError {A}.
Arguments Unsupported {A}.

Definition leb_byte (a b : byte) : bool :=
  (Byte.to_N a <=? Byte.to_N b)%N.

Definition isalnum (c : byte) : bool :=
  (leb_byte "0" c && leb_byte c "9")
  || (leb_byte "A" c && leb_byte c "Z")
  || (leb_byte "a" c && leb_byte c "z").

Definition isascii (c : byte) : bool := leb_byte c x7f.

(** The items of a character class, after [[] or [[^], up to the closing
    bracket. A bracket right at the start is a literal. *)
Fixpoint parseClassItems (fuel : nat) (first : bool) (s : gostring)
         (acc : list (byte * byte)) : parsed (list (byte * byte) * gostring) :=
  match fuel with
  | O => Unsupported
  | S fuel' =>
      match s with
      | [] => SyntaxError                              (* missing ] *)
      | "]"%byte :: s' =>
          if first then
            let acc' := acc ++ [("]"%byte, "]"%byte)] in
            match s' with
            | "-"%byte :: hi :: s'' =>
                if Byte.eqb hi "]"
                then parseClassItems fuel' false s' acc'
                else Unsupported
            | _ => parseClassItems fuel' false s' acc'
            end
          else Parsed (acc, s')
      | "["%byte :: ":"%byte :: _ => Unsupported       (* [:alpha:] *)
      | "\"%byte :: _ => Unsupported
      | lo :: "-"%byte :: hi :: s' =>
          if negb (isascii lo && isascii hi) then Unsupported
          else if Byte.eqb hi "]" then
            (* a trailing - is a literal *)
            parseClassItems fuel' false ("-"%byte :: hi :: s')
                            (acc ++ [(lo, lo)])
          else if Byte.eqb hi "\" then Unsupported
          else if leb_byte lo hi
               then parseClassItems fuel' false s' (acc ++ [(lo, hi)])
               else SyntaxError                        (* bad range *)
      | c :: s' =>
          if negb (isascii c) then Unsupported
          else parseClassItems fuel' false s' (acc ++ [(c, c)])
      end
  end.

Definition parseClass (s : gostring) : parsed (Regexp * gostring) :=
  let '(negated, s) :=
    match s with
    | "^"%byte :: s' => (true, s')
    | _ => (false, s)
    end in
  match parseClassItems (S (length s)) true s [] with
  | Parsed (ranges, s') => Parsed (Class negated ranges, s')
  | SyntaxError => SyntaxError
  | Unsupported => Unsupported
  end.

(** The postfix operators that follow an atom. A second operator right
    after the first (the non-greedy [*?], the rejected [**]) is left
    outside the fragment. *)
Definition parsePostfix (r : Regexp) (s : gostring)
  : parsed (Regexp * gostring) :=
  let isrep (c : byte) :=
    Byte.eqb c "*" || Byte.eqb c "+" || Byte.eqb c "?" in
  let after (r' : Regexp) (s' : gostring) :=
    match s' with
    | c :: _ => if isrep c then Unsupported else Parsed (r', s')
    | [] => Parsed (r', s')
    end in
  match s with
  | "*"%byte :: s' => after (Star r) s'
  | "+"%byte :: s' => after (Cat r (Star r)) s'
  | "?"%byte :: s' => after (Alt r Empty) s'
  | "{"%byte :: _ => Unsupported
  | _ => Parsed (r, s)
  end.

(** Recursive descent: alternation, concatenation, atom. *)
Fixpoint parseAlt (fuel : nat) (s : gostring) : parsed (Regexp * gostring) :=
  match fuel with
  | O => Unsupported
  | S fuel' =>
      match parseConcat fuel' s with
      | Parsed (r1, "|"%byte :: s') =>
          match parseAlt fuel' s' with
          | Parsed (r2, s'') => Parsed (Alt r1 r2, s'')
          | other => other
          end
      | other => other
      end
  end
with parseConcat (fuel : nat) (s : gostring) : parsed (Regexp * gostring) :=
  match fuel with
  | O => Unsupported
  | S fuel' =>
      match s with
      | [] => Parsed (Empty, [])
      | "|"%byte :: _ => Parsed (Empty, s)
      | ")"%byte :: _ => Parsed (Empty, s)
      | _ =>
          match parseAtom fuel' s with
          | Parsed (r1, s') =>
              match parsePostfix r1 s' with
              | Parsed (r1', s'') =>
                  match parseConcat fuel' s'' with
                  | Parsed (r2, s3) => Parsed (Cat r1' r2, s3)
                  | other => other
                  end
              | other => other
              end
          | other => other
          end
      end
  end
with parseAtom (fuel : nat) (s : gostring) : parsed (Regexp * gostring) :=
  match fuel with
  | O => Unsupported
  | S fuel' =>
      match s with
      | [] => SyntaxError
      | "("%byte :: "?"%byte :: _ => Unsupported        (* flags, (?: *)
      | "("%byte :: s' =>
          match parseAlt fuel' s' with
          | Parsed (r, ")"%byte :: s'') => Parsed (r, s'')
          | Parsed (_, _) => SyntaxError                (* missing ) *)
          | other => other
          end
      | "["%byte :: s' => parseClass s'
      | "."%byte :: s' => Parsed (AnyNotNL, s')
      | "\"%byte :: c :: s' =>
          if isascii c && negb (isalnum c) then Parsed (Lit c, s')
          else Unsupported
      | "\"%byte :: [] => SyntaxError                   (* trailing \ *)
      | "*"%byte :: _ => SyntaxError    (* missing argument to repetition *)
      | "+"%byte :: _ => SyntaxError
      | "?"%byte :: _ => SyntaxError
      | "^"%byte :: _ => Unsupported
      | "$"%byte :: _ => Unsupported
      | "{"%byte :: _ => Unsupported
      | c :: s' => if isascii c then Parsed (Lit c, s') else Unsupported
      end
  end.

(** [regexp.Compile]: [None] when the expression leaves the fragment. *)
Definition Compile (expr : gostring) : option (result Regexp) :=
  match parseAlt (4 * length expr + 4) expr with
  | Parsed (r, []) => Some (Ok r)
  | Parsed (_, _ :: _) => Some (Err ErrRegexp)          (* unexpected ) *)
  | SyntaxError => Some (Err ErrRegexp)
  | Unsupported => None
  end.

Fixpoint nullable (r : Regexp) : bool :=
  match r with
  | Empty => true
  | Lit _ => false
  | AnyNotNL => false
  | Class _ _ => false
  | Cat r1 r2 => nullable r1 && nullable r2
  | Alt r1 r2 => nullable r1 || nullable r2
  | Star _ => true
  end.

Definition inClass (negated : bool) (ranges : list (byte * byte))
           (c : byte) : bool :=
  xorb negated
       (existsb (fun '(lo, hi) => leb_byte lo c && leb_byte c hi) ranges).

(** [accepts r s] holds when [r] matches the whole of [s]. The residual
    of [r] after one byte [c] is carried as a list of alternatives. *)
Fixpoint deriv (c : byte) (r : Regexp) : list Regexp :=
  match r with
  | Empty => []
  | Lit b => if Byte.eqb b c then [Empty] else []
  | AnyNotNL => if Byte.eqb c x0a then [] else [Empty]
  | Class negated ranges => if inClass negated ranges c then [Empty] else []
  | Cat r1 r2 =>
      map (fun d => Cat d r2) (deriv c r1)
      ++ (if nullable r1 then deriv c r2 else [])
  | Alt r1 r2 => deriv c r1 ++ deriv c r2
  | Star r1 => map (fun d => Cat d (Star r1)) (deriv c r1)
  end.

(** Does some prefix of [s] match one of [rs]? *)
Fixpoint matchPrefix (rs : list Regexp) (s : gostring) : bool :=
  existsb nullable rs
  || match s with
     | [] => false
     | c :: s' => matchPrefix (flat_map (deriv c) rs) s'
     end.

(** [re.MatchString(s)]: does [s] contain any match of [re]? The search
    is not anchored at either end. *)
Fixpoint MatchString (re : Regexp) (s : gostring) : bool :=
  matchPrefix [re] s
  || match s with
     | [] => false
     | _ :: s' => MatchString re s'
     end.

End regexp.

(* ================================================================== *)
(** * address_space.go *)

Definition addressPatternToRegexp (addressPattern : gostring)
  : option (result regexp.Regexp) :=
  let apRegexp := strings.Replace addressPattern (str "/") (str "\/") in
  let apRegexp := strings.Replace apRegexp (str "?") (str ".") in
  let apRegexp := strings.Replace apRegexp (str "*") (str ".*") in
  let apRegexp := strings.Replace apRegexp (str "![") (str "[^") in
  let apRegexp := strings.Replace apRegexp (str "{") (str "(") in
  let apRegexp := strings.Replace apRegexp (str "}") (str ")") in
  let apRegexp := strings.Replace apRegexp (str ",") (str "|") in
  regexp.Compile apRegexp.

Section AddressSpace.

(** What the handler functions act upon. *)
Variable World : Type.

Definition MessageHandleFunc : Type := Message -> World -> World.

Record Method : Type := mkMethod {
  AddressPattern : gostring;
  Function : MessageHandleFunc;
  method_regexp : regexp.Regexp
}.

Record AddressSpace : Type := mkAddressSpace { methods : list Method }.

Definition AddressSpace_Handle (a : AddressSpace) (addressPattern : gostring)
           (fn : MessageHandleFunc) : option (AddressSpace * result unit) :=
  match addressPatternToRegexp addressPattern with
  | None => None
  | Some (Err e) => Some (a, Err e)
  | Some (Panic p) => Some (a, Panic p)
  | Some (Ok re) =>
      let method := mkMethod addressPattern fn re in
      Some (mkAddressSpace (methods a ++ [method]), Ok tt)
  end.

Definition AddressSpace_Methods (a : AddressSpace) : list Method :=
  methods a.

(** The [for _, h := range a.methods] loop of [Dispatch]. *)
Fixpoint dispatchLoop (hs : list Method) (m : Message) (w : World) : World :=
  match hs with
  | [] => w
  | h :: hs' =>
      if regexp.MatchString (method_regexp h) (Address m)
      then dispatchLoop hs' m (Function h m w)
      else dispatchLoop hs' m w
  end.

(** [m] is a [*Message]; [None] is the [nil] pointer. *)
Definition AddressSpace_Dispatch (a : AddressSpace) (m : option Message)
           (w : World) : World :=
  match m with
  | None => w
  | Some m => dispatchLoop (methods a) m w
  end.

End AddressSpace.

(** Registration of [pattern] in an empty address space with a handler
    that records its call, followed by the dispatch of a message sent to
    [address]: the list of patterns whose handler ran. *)
Definition dispatched (pattern address : gostring) : option (list gostring) :=
  match AddressSpace_Handle (mkAddressSpace []) pattern
          (fun _ (w : list gostring) => w ++ [pattern]) with
  | Some (a, Ok _) =>
      Some (AddressSpace_Dispatch a (Some (NewMessage address)) [])
  | _ => None
  end.

(* ================================================================== *)
(** * Auxiliary definitions used in the statements *)

(** Number of bytes that bring a length of [n] up to a multiple of 4. *)
Definition padding (n : Z) : nat := Z.to_nat (and_not (n + 3) 3 - n).

Definition agree_below (N : nat) (f g : list byte -> option (result Packet))
  : Prop :=
  forall d, (length d < N)%nat -> f d = g d /\ f d <> None.

Definition empty_bundle_bytes : list byte :=
  str "#bundle" ++ [x00] ++ [x00;x00;x00;x00;x00;x00;x00;x01].

Definition foo_arg_bytes : list byte :=
  str "/foo" ++ [x00;x00;x00;x00] ++ str ",b" ++ [x00;x00]
  ++ [x00;x00;x00;x03] ++ str "arg" ++ [x00].

Definition negative_blob_message : list byte :=
  str "/b" ++ [x00; x00] ++ str ",b" ++ [x00; x00] ++ [x80; x00; x00; x00].

Definition immediate_bytes : list byte :=
  [x00; x00; x00; x00; x00; x00; x00; x01].

(** The time 1900-01-01T00:00:00.000000001Z, one nanosecond after the OSC
    epoch. *)
Definition osc_epoch_plus_1ns : time.Time :=
  time.mkTime (-2208988800) 1 time.UTC.

Ltac euclid := Z.to_euclidean_division_equations; lia.

(** The layout of the contents of a bundle: nothing, or a 32-bit length,
    that many bytes which [decodePacket] decodes, and further contents. *)
Inductive bundle_elements : list byte -> list Packet -> Prop :=
| elements_end : bundle_elements [] []
| elements_child (cnt child rest : list byte) (p : Packet) (ps : list Packet) :
    length cnt = 4%nat ->
    be_uint cnt = len child ->
    decodePacket child = Ok p ->
    bundle_elements rest ps ->
    bundle_elements (cnt ++ child ++ rest) (p :: ps).

(** The loop of [Bundle.UnmarshalBinary] over the decoder of packets. *)
Definition unmarshalElements (fuel : nat) (buf : Buffer.t)
           (elements : list Packet) : option (result (list Packet)) :=
  unmarshalLoop (fun d => Some (decodePacket d)) fuel buf elements.

(** The time tags and the arguments that the wire format can carry
    unchanged: a time tag is immediate with the zero time, or a UTC time
    within the 32 bits of seconds that is not written as the immediate
    value; an integer fits its width; a string has no NUL; a byte slice is
    not empty and its rounded length fits an [int32]; a boolean is
    [true]. *)
Definition canonical_timeTag (timeTag : TimeTag) : Prop :=
  timeTag = NewImmediateTimeTag
  \/ (Immediate timeTag = false
      /\ time.loc (tt_time timeTag) = time.UTC
      /\ 0 <= time.nsec (tt_time timeTag) < 1000000000
      /\ 0 <= time.sec (tt_time timeTag) + unixOSCEpochOffset < 4294967296
      /\ ~ (time.sec (tt_time timeTag) + unixOSCEpochOffset = 0
            /\ time.nsec (tt_time timeTag) = 1)).

Definition canonical (a : Argument) : Prop :=
  match a with
  | ArgNil => True
  | ArgInt32 v => - 2147483648 <= v < 2147483648
  | ArgFloat32 bits => 0 <= bits < 4294967296
  | ArgString s => ~ In x00 s
  | ArgBytes b => b <> [] /\ len b + 3 < 2147483648
  | ArgBool b => b = true
  | ArgInt64 v => - 9223372036854775808 <= v < 9223372036854775808
  | ArgFloat64 bits => 0 <= bits < 18446744073709551616
  | ArgTimeTag timeTag => canonical_timeTag timeTag
  | ArgOther => False
  end.

(** The tag and the payload of an argument. *)
Definition tagOf (a : Argument) : gostring :=
  match typeTag a with Ok t => t | _ => [] end.

Definition payloadOf (a : Argument) : list byte :=
  match encodeArgument a with Ok d => d | _ => [] end.

(* ================================================================== *)
(** * Further code of the package *)

(** [strings.Split(s, sep)] for a non-empty [sep]: the pieces of [s]
    between the occurrences of [sep], found left to right; [cur] is the
    piece being read. *)
Fixpoint split_from (fuel : nat) (s sep cur : gostring) : list gostring :=
  match fuel with
  | O => [cur ++ s]
  | S fuel' =>
      match s with
      | [] => [cur]
      | b :: s' =>
          if strings.HasPrefix s sep
          then cur :: split_from fuel' (skipn (length sep) s) sep []
          else split_from fuel' s' sep (cur ++ [b])
      end
  end.

Definition strings_Split (s sep : gostring) : list gostring :=
  split_from (length s) s sep [].

(** [strings.Join(parts, sep)] *)
Fixpoint strings_Join (parts : list gostring) (sep : gostring) : gostring :=
  match parts with
  | [] => []
  | [p] => p
  | p :: ps => p ++ sep ++ strings_Join ps sep
  end.

(** message.go: [Message.AddressParts]. *)
Definition Message_AddressParts (msg : Message) : list gostring :=
  let parts := strings_Split (Address msg) (str "/") in
  parts.

(** The message after a run of [AddArgument] calls, whatever each call
    returned. *)
Definition addArguments (msg : Message) (args : list Argument) : Message :=
  fold_left (fun m arg => fst (Message_AddArgument m arg)) args msg.

Definition supported (a : Argument) : bool :=
  match a with ArgOther => false | _ => true end.

(** The tag under which an argument read for the tag [t] is written
    again. *)
Definition retag (t : byte) : byte :=
  if Byte.eqb t "F" then "T"%byte else t.

(** The loop of [Bundle.MarshalBinary] over the child elements. *)
Fixpoint marshalElements (es : list Packet) (buf : list byte)
  : result (list byte) :=
  match es with
  | [] => Ok buf
  | e :: es' =>
      encoded <- Packet_MarshalBinary e ;;
      let count := wrap_u 32 (len encoded) in
      marshalElements es' (buf ++ binary.Write32 count ++ encoded)
  end.

(** The packets that the wire format can carry unchanged: a message with
    canonical arguments whose address starts with '/' and has no NUL; a
    bundle with a canonical time tag whose elements are such packets, each
    marshalled in fewer than 2^32 bytes. *)
Fixpoint canonical_packet (p : Packet) : Prop :=
  match p with
  | PMessage m =>
      (exists rest, Address m = "/"%byte :: rest)
      /\ ~ In x00 (Address m)
      /\ Forall canonical (Arguments m)
  | PBundle (mkBundle timeTag elements) =>
      canonical_timeTag timeTag
      /\ (fix all (es : list Packet) : Prop :=
            match es with
            | [] => True
            | e :: es' =>
                (canonical_packet e
                 /\ forall encoded, Packet_MarshalBinary e = Ok encoded ->
                                    len encoded < 4294967296)
                /\ all es'
            end) elements
  end.

(** ** client.go and server.go: what the transports do with the bytes *)



Section Transports.

Variable World : Type.

(** The [switch p.(type)] that the transports run on a decoded packet: a
    message is dispatched, a bundle is reported and dropped. *)
Definition dispatchPacket (a : AddressSpace World) (p : Packet) (w : World)
  : World :=
  match p with
  | PMessage m => AddressSpace_Dispatch a (Some m) w
  | PBundle _ => w
  end.


(** [TCPServer.handleIncomingData] on a slice [data] of capacity
    [capacity]: the length read from [data[:4]] is only printed, and the
    packet decoder is given [data[len(data)-3:]]. *)
Definition TCPServer_handleIncomingData (a : AddressSpace World)
           (data : list byte) (capacity : nat) (w : World) : result World :=
  if Nat.ltb capacity 4 then Panic SliceBoundsOutOfRange       (* data[:4] *)
  else if len data - 3 <? 0 then Panic SliceBoundsOutOfRange
  else
    match decodePacket (skipn (length data - 3) data) with
    | Err _ => Ok w
    | Panic pn => Panic pn
    | Ok p => Ok (dispatchPacket a p w)
    end.

(** [TCPClient.responseReaderLoop] on the bytes that arrive before the
    connection ends: [reader] holds those not yet read, and the slice
    [buf[:int(count)]] of the 65535-byte buffer receives each packet. A
    failed read leaves the loop, a packet that does not decode is
    skipped. [None] says that the iteration budget was used up. *)
Fixpoint responseReaderLoop (fuel : nat) (a : AddressSpace World)
         (reader : list byte) (w : World) : option (result World) :=
  match fuel with
  | O => None
  | S fuel' =>
      match binary.ReadUint32 reader with
      | Err _ => Some (Ok w)                                     (* break *)
      | Panic pn => Some (Panic pn)
      | Ok (count, reader) =>
          if 65535 <? count then Some (Panic SliceBoundsOutOfRange)
          else
            match binary.ReadFull (Z.to_nat count) reader with
            | Err _ => Some (Ok w)                               (* break *)
            | Panic pn => Some (Panic pn)
            | Ok (packetData, reader) =>
                match decodePacket packetData with
                | Err _ => responseReaderLoop fuel' a reader w   (* continue *)
                | Panic pn => Some (Panic pn)
                | Ok p =>
                    responseReaderLoop fuel' a reader (dispatchPacket a p w)
                end
            end
      end
  end.

(** Every turn of the loop reads at least the four bytes of a length. *)
Definition TCPClient_responseReaderLoop (a : AddressSpace World)
           (reader : list byte) (w : World) : result World :=
  run (Ok w) (responseReaderLoop (S (length reader)) a reader w).

End Transports.

(* ================================================================== *)
(** * Properties *)

Unset Implicit Arguments.

(** ** Test vectors of the package's own test files *)

Example padTo32Bits_slash :
  padTo32Bits (str "/") = str "/" ++ [x00; x00; x00].
Proof. reflexivity. Qed.

Example padTo32Bits_empty : padTo32Bits [] = [].
Proof. reflexivity. Qed.

Example marshal_freq :
  Message_MarshalBinary
    (mkMessage (str "/oscillator/4/frequency") [ArgFloat32 0x43dc0000])
  = Ok (str "/oscillator/4/frequency" ++ [x00] ++ str ",f" ++ [x00; x00]
        ++ [x43; xdc; x00; x00]).
Proof. reflexivity. Qed.

Example unmarshal_foo :
  Message_UnmarshalBinary NewEmptyMessage
    (str "/foo" ++ [x00;x00;x00;x00] ++ str ",iisff" ++ [x00;x00]
     ++ [x00;x00;x03;xe8; xff;xff;xff;xff]
     ++ str "hello" ++ [x00;x00;x00]
     ++ [x3f;x9d;xf3;xb6; x40;xb5;xb2;x2d])
  = (mkMessage (str "/foo")
       [ArgInt32 1000; ArgInt32 (-1); ArgString (str "hello");
        ArgFloat32 0x3f9df3b6; ArgFloat32 0x40b5b22d], Ok tt).
Proof. reflexivity. Qed.

Example encodeTimeTag_2018 :
  encodeTimeTag (NewTimeTag (time.mkTime 1514764800 500000000 time.UTC))
  = [xdd; xf3; xf8; x80; x1d; xcd; x65; x00].
Proof. reflexivity. Qed.

Example decodeTimeTag_2018 :
  decodeTimeTag [xdd; xf3; xf8; x80; x1d; xcd; x65; x00]
  = Ok (NewTimeTag (time.mkTime 1514764800 500000000 time.UTC), []).
Proof. reflexivity. Qed.

Example marshal_bundle4 :
  Bundle_MarshalBinary
    (mkBundle NewImmediateTimeTag
       [PMessage (mkMessage (str "/foo") [ArgBytes (str "arg")]);
        PBundle NewBundle])
  = Ok (empty_bundle_bytes ++ [x00;x00;x00;x14] ++ foo_arg_bytes
        ++ [x00;x00;x00;x10] ++ empty_bundle_bytes).
Proof. reflexivity. Qed.

Example unmarshal_bundle4 :
  NewBundleFromData
    (empty_bundle_bytes ++ [x00;x00;x00;x14] ++ foo_arg_bytes
     ++ [x00;x00;x00;x10] ++ empty_bundle_bytes)
  = (mkBundle NewImmediateTimeTag
       [PMessage (mkMessage (str "/foo") [ArgBytes (str "arg")]);
        PBundle NewBundle], Ok tt).
Proof. vm_compute. reflexivity. Qed.

(** ** Bytes and big-endian integers *)

Lemma byte_to_Z_range (b : byte) : 0 <= byte_to_Z b < 256.
Proof.
  unfold byte_to_Z. pose proof (Byte.to_N_bounded b). lia.
Qed.

Lemma byte_of_to_Z (b : byte) : byte_of_Z (byte_to_Z b) = b.
Proof.
  unfold byte_of_Z. rewrite Z.mod_small by apply byte_to_Z_range.
  unfold byte_to_Z. now rewrite N2Z.id, Byte.of_to_N.
Qed.

Lemma byte_to_of_Z (z : Z) : byte_to_Z (byte_of_Z z) = z mod 256.
Proof.
  unfold byte_of_Z, byte_to_Z.
  pose proof (Z.mod_pos_bound z 256 ltac:(lia)) as Hz.
  destruct (Byte.of_N (Z.to_N (z mod 256))) as [b|] eqn:E.
  - apply Byte.to_of_N in E. rewrite E. apply Z2N.id. lia.
  - apply Byte.of_N_None_iff in E. lia.
Qed.

Lemma eqb_byte_true (a b : byte) : Byte.eqb a b = true <-> a = b.
Proof.
  split; [apply Byte.byte_dec_bl | apply Byte.byte_dec_lb].
Qed.

Lemma eqb_byte_false (a b : byte) : Byte.eqb a b = false <-> a <> b.
Proof.
  split.
  - apply Byte.eqb_false.
  - intro H. destruct (Byte.eqb a b) eqn:E; [|reflexivity].
    apply eqb_byte_true in E. contradiction.
Qed.

Lemma eqb_bytes_true (s1 s2 : list byte) : eqb_bytes s1 s2 = true <-> s1 = s2.
Proof.
  revert s2. induction s1 as [|a s1 IH]; intros [|b s2]; simpl;
    try (split; [discriminate | congruence]); [tauto|].
  rewrite andb_true_iff, eqb_byte_true, IH. split.
  - intros [-> ->]. reflexivity.
  - intros H. injection H as -> ->. auto.
Qed.

Lemma be_acc_split (bs : list byte) (acc : Z) :
  be_acc acc bs = acc * 256 ^ len bs + be_uint bs.
Proof.
  unfold be_uint, len. revert acc.
  induction bs as [|b bs IH]; intro acc.
  - simpl. lia.
  - cbn [be_acc length]. rewrite IH, (IH (0 * 256 + byte_to_Z b)).
    rewrite Nat2Z.inj_succ, Z.pow_succ_r by lia. ring.
Qed.

Lemma be_uint_range (bs : list byte) : 0 <= be_uint bs < 256 ^ len bs.
Proof.
  induction bs as [|b bs IH].
  - unfold be_uint, len. simpl. lia.
  - unfold be_uint. cbn [be_acc]. rewrite be_acc_split.
    unfold len in *. cbn [length].
    rewrite Nat2Z.inj_succ, Z.pow_succ_r by lia.
    pose proof (byte_to_Z_range b).
    assert (0 < 256 ^ Z.of_nat (length bs)) by (apply Z.pow_pos_nonneg; lia).
    nia.
Qed.

Lemma be_uint_app (a b : list byte) :
  be_uint (a ++ b) = be_uint a * 256 ^ len b + be_uint b.
Proof.
  unfold be_uint at 1 2. generalize 0 as acc.
  induction a as [|x a IH]; intro acc.
  - simpl. rewrite be_acc_split. reflexivity.
  - cbn [app be_acc]. apply IH.
Qed.

Lemma length_be_bytes (k : nat) (z : Z) : length (be_bytes k z) = k.
Proof. induction k; simpl; congruence. Qed.

Lemma be_uint_be_bytes (k : nat) (z : Z) :
  be_uint (be_bytes k z) = z mod 256 ^ Z.of_nat k.
Proof.
  induction k as [|k IH].
  - unfold be_uint. simpl. now rewrite Z.mod_1_r.
  - unfold be_uint. cbn [be_bytes be_acc]. rewrite be_acc_split, IH.
    unfold len. rewrite length_be_bytes, byte_to_of_Z.
    rewrite Nat2Z.inj_succ, Z.pow_succ_r by lia.
    assert (0 < 256 ^ Z.of_nat k) by (apply Z.pow_pos_nonneg; lia).
    rewrite (Z.mul_comm 256), Z.rem_mul_r by lia. ring.
Qed.

(** ** The readers *)

Lemma and_not_3 (x : Z) : and_not x 3 = 4 * (x / 4).
Proof.
  unfold and_not. change 3 with (Z.ones 2).
  rewrite Z.ldiff_ones_r by lia.
  rewrite Z.shiftr_div_pow2, Z.shiftl_mul_pow2 by lia.
  change (2 ^ 2) with 4. ring.
Qed.

Lemma padLoop_repeat (n : nat) (data : list byte) :
  padLoop n data = data ++ repeat x00 n.
Proof.
  revert data. induction n as [|n IH]; intro data; simpl.
  - now rewrite app_nil_r.
  - rewrite IH, <- app_assoc. reflexivity.
Qed.

Lemma padding_spec (n : Z) : Z.of_nat (padding n) = (- n) mod 4.
Proof.
  unfold padding. rewrite and_not_3.
  pose proof (Z.mod_pos_bound (- n) 4 ltac:(lia)).
  pose proof (Z.div_mod (n + 3) 4 ltac:(lia)).
  pose proof (Z.mod_pos_bound (n + 3) 4 ltac:(lia)).
  assert (E : (- n) mod 4 = 3 - (n + 3) mod 4).
  { symmetry. apply Z.mod_unique_pos with (q := - ((n + 3) / 4)); lia. }
  lia.
Qed.

Lemma padTo32Bits_eq (data : list byte) :
  padTo32Bits data = data ++ repeat x00 (padding (len data)).
Proof.
  unfold padTo32Bits, padding. rewrite padLoop_repeat.
  do 2 f_equal. lia.
Qed.

Lemma ReadString_found (d : byte) (s rest : list byte) :
  ~ In d s ->
  Buffer.ReadString d (s ++ d :: rest) = ((s ++ [d], None), rest).
Proof.
  induction s as [|b s IH]; intro Hs; simpl.
  - now rewrite (Byte.byte_dec_lb eq_refl).
  - assert (Hb : Byte.eqb b d = false).
    { apply eqb_byte_false. intro. apply Hs. left. congruence. }
    rewrite Hb, IH; [reflexivity|]. intro. apply Hs. now right.
Qed.

Lemma ReadString_not_found (d : byte) (buf : list byte) :
  ~ In d buf -> Buffer.ReadString d buf = ((buf, Some EOF), []).
Proof.
  induction buf as [|b buf IH]; intro Hs; simpl; [reflexivity|].
  assert (Hb : Byte.eqb b d = false).
  { apply eqb_byte_false. intro. apply Hs. left. congruence. }
  rewrite Hb, IH; [reflexivity|]. intro. apply Hs. now right.
Qed.

Lemma In_dec_byte (d : byte) (l : list byte) : {In d l} + {~ In d l}.
Proof. apply in_dec, Byte.byte_eq_dec. Qed.

(** A buffer either has no [d], or splits at its first [d]. *)
Lemma split_first (d : byte) (buf : list byte) :
  ~ In d buf \/ exists s rest, buf = s ++ d :: rest /\ ~ In d s.
Proof.
  induction buf as [|b buf IH].
  - left. auto.
  - destruct (Byte.byte_eq_dec b d) as [->|Hne].
    + right. exists [], buf. auto.
    + destruct IH as [Hn | (s & rest & -> & Hs)].
      * left. intros [H|H]; auto.
      * right. exists (b :: s), rest. split; [reflexivity|].
        intros [H|H]; auto.
Qed.

Lemma ReadString_inv (d : byte) (buf s0 r : list byte) :
  Buffer.ReadString d buf = ((s0, None), r) ->
  exists s, s0 = s ++ [d] /\ ~ In d s /\ buf = s ++ d :: r.
Proof.
  destruct (split_first d buf) as [Hn | (s & rest & -> & Hs)].
  - rewrite ReadString_not_found by assumption. discriminate.
  - rewrite ReadString_found by assumption. intro H.
    injection H as <- <-. eauto.
Qed.

Lemma TrimLeft_free (s : list byte) :
  ~ In x00 s -> strings.TrimLeft s [x00] = s.
Proof.
  destruct s as [|b s]; intro Hs; simpl; [reflexivity|].
  unfold strings.mem. simpl.
  assert (Hb : Byte.eqb b x00 = false).
  { apply eqb_byte_false. intro. apply Hs. left. congruence. }
  now rewrite Hb.
Qed.

Lemma Trim_terminated (s : list byte) :
  ~ In x00 s -> strings.Trim (s ++ [x00]) [x00] = s.
Proof.
  intro Hs. unfold strings.Trim, strings.TrimRight.
  destruct s as [|b s]; [reflexivity|].
  assert (Hl : strings.TrimLeft ((b :: s) ++ [x00]) [x00] = (b :: s) ++ [x00]).
  { change ((b :: s) ++ [x00]) with (b :: (s ++ [x00])).
    cbn [strings.TrimLeft]. unfold strings.mem. simpl.
    assert (Hb : Byte.eqb b x00 = false).
    { apply eqb_byte_false. intro. apply Hs. left. congruence. }
    now rewrite Hb. }
  rewrite Hl. remember (b :: s) as l eqn:El. clear El Hl.
  rewrite rev_app_distr. change (rev [x00]) with [x00].
  cbn [app strings.TrimLeft].
  unfold strings.mem at 1. cbn [existsb]. rewrite (Byte.byte_dec_lb eq_refl).
  cbn [orb]. rewrite TrimLeft_free.
  - apply rev_involutive.
  - intro H. apply in_rev in H. auto.
Qed.

Lemma popPadding_zeros (k : nat) (rest : list byte) :
  popPadding k (repeat x00 k ++ rest) = Ok (tt, rest).
Proof. induction k as [|k IH]; simpl; auto. Qed.

Lemma popPadding_nil (k : nat) : popPadding k [] = Ok (tt, []).
Proof. induction k as [|k IH]; simpl; auto. Qed.

Lemma popPadding_nonzero (k j : nat) (b : byte) (rest : list byte) :
  (j < k)%nat -> b <> x00 ->
  popPadding k (repeat x00 j ++ b :: rest) = Panic NilDereference.
Proof.
  revert k. induction j as [|j IH]; intros [|k] Hjk Hb; try lia; simpl.
  - apply eqb_byte_false in Hb. now rewrite Hb.
  - apply IH; [lia | assumption].
Qed.

(** The padding loop ends in one of two ways only. *)
Lemma popPadding_cases (k : nat) (buf : list byte) :
  (exists buf', popPadding k buf = Ok (tt, buf')
                /\ (length buf' <= length buf)%nat)
  \/ popPadding k buf = Panic NilDereference.
Proof.
  revert buf. induction k as [|k IH]; intro buf; simpl.
  - left. eauto.
  - destruct buf as [|b buf]; simpl.
    + destruct (IH []) as [(buf' & -> & Hl) | ->]; [left | right]; eauto.
    + destruct (Byte.eqb b x00); simpl; [|right; reflexivity].
      destruct (IH buf) as [(buf' & -> & Hl) | ->]; [left | right]; eauto.
Qed.

Lemma decodeString_found (s rest : list byte) :
  ~ In x00 s ->
  decodeString (s ++ x00 :: rest)
  = ('(_, buf) <- popPadding (padding (len s + 1)) rest ;; Ok (s, buf)).
Proof.
  intro Hs. unfold decodeString.
  rewrite ReadString_found by assumption.
  rewrite Trim_terminated by assumption.
  unfold padding, len. rewrite length_app, Nat2Z.inj_add. reflexivity.
Qed.

Lemma decodeString_not_found (buf : list byte) :
  ~ In x00 buf -> decodeString buf = Err EOF.
Proof.
  intro Hs. unfold decodeString. now rewrite ReadString_not_found.
Qed.

Lemma decodeString_padded (s rest : list byte) :
  ~ In x00 s ->
  decodeString (s ++ x00 :: repeat x00 (padding (len s + 1)) ++ rest)
  = Ok (s, rest).
Proof.
  intro Hs. rewrite decodeString_found by assumption.
  now rewrite popPadding_zeros.
Qed.

Lemma decodeString_encodeString (s rest : list byte) :
  ~ In x00 s -> decodeString (encodeString s ++ rest) = Ok (s, rest).
Proof.
  intro Hs. unfold encodeString. rewrite padTo32Bits_eq.
  unfold len. rewrite length_app. cbn [length].
  rewrite <- !app_assoc. cbn [app].
  replace (Z.of_nat (length s + 1)) with (len s + 1) by (unfold len; lia).
  now apply decodeString_padded.
Qed.

Lemma decodeString_shorter (buf buf' : list byte) (s : gostring) :
  decodeString buf = Ok (s, buf') -> (length buf' < length buf)%nat.
Proof.
  destruct (split_first x00 buf) as [Hn | (s0 & rest & -> & Hs)].
  - rewrite decodeString_not_found by assumption. discriminate.
  - rewrite decodeString_found by assumption.
    destruct (popPadding_cases (padding (len s0 + 1)) rest)
      as [(b' & -> & Hl) | ->]; simpl; [|discriminate].
    intro H. injection H as _ <-. rewrite length_app. simpl. lia.
Qed.

(** A string decoder never returns an error other than [io.EOF]. *)
Lemma decodeString_outcomes (buf : list byte) :
  (exists s buf', decodeString buf = Ok (s, buf'))
  \/ decodeString buf = Err EOF
  \/ decodeString buf = Panic NilDereference.
Proof.
  destruct (split_first x00 buf) as [Hn | (s0 & rest & -> & Hs)].
  - right. left. now apply decodeString_not_found.
  - rewrite decodeString_found by assumption.
    destruct (popPadding_cases (padding (len s0 + 1)) rest)
      as [(b' & -> & Hl) | ->]; simpl; eauto.
Qed.

Lemma firstn_app_len {A} (a rest : list A) : firstn (length a) (a ++ rest) = a.
Proof. induction a; simpl; congruence. Qed.

Lemma skipn_app_len {A} (a rest : list A) : skipn (length a) (a ++ rest) = rest.
Proof. induction a; simpl; congruence. Qed.

Lemma ReadFull_app (k : nat) (a rest : list byte) :
  length a = k -> binary.ReadFull k (a ++ rest) = Ok (a, rest).
Proof.
  intro Ha. unfold binary.ReadFull.
  assert (Nat.leb k (length (a ++ rest)) = true) as ->.
  { apply Nat.leb_le. rewrite length_app. lia. }
  subst k. now rewrite firstn_app_len, skipn_app_len.
Qed.

Lemma ReadFull_inv (k : nat) (buf a rest : list byte) :
  binary.ReadFull k buf = Ok (a, rest) -> buf = a ++ rest /\ length a = k.
Proof.
  unfold binary.ReadFull.
  destruct (Nat.leb k (length buf)) eqn:E.
  - apply Nat.leb_le in E. intro H. injection H as <- <-. split.
    + symmetry. apply firstn_skipn.
    + apply firstn_length_le. assumption.
  - destruct buf; discriminate.
Qed.


Lemma ReadUint32_inv (buf buf1 : list byte) (count : Z) :
  binary.ReadUint32 buf = Ok (count, buf1) ->
  exists cnt, buf = cnt ++ buf1 /\ length cnt = 4%nat
              /\ count = be_uint cnt /\ 0 <= count < 2 ^ 32.
Proof.
  unfold binary.ReadUint32.
  destruct (binary.ReadFull 4 buf) as [[bs rest]| |] eqn:E; try discriminate.
  simpl. intro H. injection H as <- <-.
  apply ReadFull_inv in E. destruct E as [-> Hl].
  exists bs. repeat split; auto; pose proof (be_uint_range bs) as Hr;
    unfold len in Hr; rewrite Hl in Hr; change (256 ^ Z.of_nat 4) with (2 ^ 32) in Hr;
    lia.
Qed.

Lemma ReadUint32_app (cnt rest : list byte) :
  length cnt = 4%nat -> binary.ReadUint32 (cnt ++ rest) = Ok (be_uint cnt, rest).
Proof.
  intro H. unfold binary.ReadUint32. now rewrite ReadFull_app.
Qed.

Lemma Read_count_bound (n : nat) (buf data buf' : list byte) (k : Z)
      (err : option error) :
  Buffer.Read n buf = ((data, k, err), buf') -> 0 <= k <= Z.of_nat n.
Proof.
  unfold Buffer.Read. destruct buf as [|b buf].
  - destruct (Nat.eqb n 0); intro H; injection H as <- <- <- <-; lia.
  - intro H. injection H as <- <- <- <-. lia.
Qed.

Lemma Read_full_inv (n : nat) (buf data buf' : list byte) :
  Buffer.Read n buf = ((data, Z.of_nat n, None), buf') ->
  buf = data ++ buf' /\ length data = n.
Proof.
  unfold Buffer.Read. destruct buf as [|b buf].
  - destruct (Nat.eqb n 0) eqn:E; intro H; [|discriminate].
    apply Nat.eqb_eq in E. injection H as <- _ <-. auto.
  - intro H. injection H as <- Hk <-.
    assert (Hle : (n <= S (length buf))%nat) by lia.
    replace (n - S (length buf))%nat with 0%nat by lia.
    cbn [repeat]. rewrite app_nil_r, firstn_skipn. split; [reflexivity|].
    now apply firstn_length_le.
Qed.

Lemma Read_exact (child rest : list byte) :
  Buffer.Read (length child) (child ++ rest) = ((child, len child, None), rest).
Proof.
  unfold Buffer.Read, len.
  destruct (child ++ rest) as [|b l] eqn:E.
  - apply app_eq_nil in E. destruct E as [-> ->]. reflexivity.
  - rewrite <- E, firstn_app_len, skipn_app_len, length_app.
    replace (length child - (length child + length rest))%nat with 0%nat by lia.
    cbn [repeat]. rewrite app_nil_r. do 3 f_equal. lia.
Qed.

(** With fewer than [n] bytes left, [Read] reports an error or a count
    below [n]. *)
Lemma Read_short (n : nat) (buf : list byte) :
  (length buf < n)%nat ->
  exists data k err buf',
    Buffer.Read n buf = ((data, k, err), buf')
    /\ (err <> None \/ (0 <= k < Z.of_nat n)).
Proof.
  intro H. unfold Buffer.Read. destruct buf as [|b buf].
  - destruct n; [lia|]. simpl. do 4 eexists. split; [reflexivity|].
    left. discriminate.
  - do 4 eexists. split; [reflexivity|]. right. lia.
Qed.

Lemma decodeTimeTag_inv (buf buf' : list byte) (timeTag : TimeTag) :
  decodeTimeTag buf = Ok (timeTag, buf') ->
  exists ttb, buf = ttb ++ buf' /\ length ttb = 8%nat
              /\ decodeTimeTag ttb = Ok (timeTag, []).
Proof.
  unfold decodeTimeTag, binary.ReadUint64.
  destruct (binary.ReadFull 8 buf) as [[bs rest]| |] eqn:E; try discriminate.
  apply ReadFull_inv in E. destruct E as [-> Hl].
  cbn [bind]. remember (timeTagOfUint64 (be_uint bs)) as t0 eqn:Et.
  intros H. injection H as Ht Hr. subst timeTag rest. exists bs.
  repeat split; auto.
  rewrite <- (app_nil_r bs) at 1. rewrite ReadFull_app by assumption.
  cbn [bind]. now rewrite <- Et.
Qed.

Lemma decodeTimeTag_app (ttb rest : list byte) :
  length ttb = 8%nat ->
  decodeTimeTag (ttb ++ rest)
  = ('(timeTag, _) <- decodeTimeTag ttb ;; Ok (timeTag, rest)).
Proof.
  intro Hl. unfold decodeTimeTag, binary.ReadUint64.
  rewrite ReadFull_app by assumption.
  rewrite <- (app_nil_r ttb) at 2. rewrite ReadFull_app by assumption.
  reflexivity.
Qed.

(** ** The recursion budget of [decodePacket] is never used up *)

Lemma unmarshalLoop_ext (f g : list byte -> option (result Packet)) (N : nat) :
  agree_below N f g ->
  forall fuel1 fuel2 buf els,
    (length buf <= N)%nat ->
    (length buf < fuel1)%nat -> (length buf < fuel2)%nat ->
    unmarshalLoop f fuel1 buf els = unmarshalLoop g fuel2 buf els
    /\ unmarshalLoop f fuel1 buf els <> None.
Proof.
  intros Hfg. induction fuel1 as [|fuel1 IH]; intros fuel2 buf els HN H1 H2;
    [lia|]. destruct fuel2 as [|fuel2]; [lia|].
  cbn [unmarshalLoop].
  destruct (binary.ReadUint32 buf) as [[count buf1]|e|p] eqn:E.
  - apply ReadUint32_inv in E. destruct E as (cnt & -> & Hc & -> & Hr).
    rewrite length_app in *.
    destruct (Buffer.Read (Z.to_nat (be_uint cnt)) buf1)
      as [[[data k] err] buf2] eqn:ER.
    destruct err as [e|]; [split; [reflexivity | discriminate]|].
    destruct (wrap_u 32 k =? be_uint cnt) eqn:EK; cbn [negb];
      [|split; [reflexivity | discriminate]].
    pose proof (Read_count_bound _ _ _ _ _ _ ER) as Hk. rewrite Z2Nat.id in Hk by lia.
    apply Z.eqb_eq in EK. unfold wrap_u in EK.
    rewrite Z.mod_small in EK by lia. subst k.
    rewrite <- (Z2Nat.id (be_uint cnt)) in ER at 2 by lia.
    apply Read_full_inv in ER. destruct ER as [-> Hd].
    rewrite length_app in *.
    destruct (Hfg data ltac:(lia)) as [Efg Hne]. rewrite <- Efg.
    destruct (f data) as [[p|e|p]|]; try (split; [reflexivity | discriminate]).
    + apply IH; lia.
    + contradiction.
  - destruct e; split; (reflexivity || discriminate).
  - split; [reflexivity | discriminate].
Qed.

Lemma decodeTimeTag_length (buf buf' : list byte) (timeTag : TimeTag) :
  decodeTimeTag buf = Ok (timeTag, buf') -> (length buf' <= length buf)%nat.
Proof.
  intro H. apply decodeTimeTag_inv in H. destruct H as (ttb & -> & _).
  rewrite length_app. lia.
Qed.

Lemma Bundle_UnmarshalBinary_rec_ext
      (f g : list byte -> option (result Packet)) (N : nat)
      (bun : Bundle) (data : list byte) :
  agree_below N f g -> (length data <= N)%nat ->
  Bundle_UnmarshalBinary_rec f bun data = Bundle_UnmarshalBinary_rec g bun data
  /\ Bundle_UnmarshalBinary_rec f bun data <> None.
Proof.
  intros Hfg HN. unfold Bundle_UnmarshalBinary_rec, Buffer.NewBuffer.
  destruct (decodeString data) as [[identifier buf]|e|p] eqn:E1;
    try (split; [reflexivity | discriminate]).
  apply decodeString_shorter in E1.
  destruct (negb (eqb_bytes identifier (str "#bundle")));
    try (split; [reflexivity | discriminate]).
  destruct (decodeTimeTag buf) as [[timeTag buf2]|e|p] eqn:E2;
    try (split; [reflexivity | discriminate]).
  apply decodeTimeTag_length in E2.
  destruct (unmarshalLoop_ext f g N Hfg (S (length buf2)) (S (length buf2))
              buf2 []) as [El Hne]; try lia.
  rewrite <- El.
  destruct (unmarshalLoop f (S (length buf2)) buf2 []) as [[els|e|p]|];
    try (split; [reflexivity | discriminate]).
  contradiction.
Qed.

Lemma decodePacket_body_ext
      (f g : list byte -> option (result Packet)) (N : nat) (data : list byte) :
  agree_below N f g -> (length data <= N)%nat ->
  decodePacket_body f data = decodePacket_body g data
  /\ decodePacket_body f data <> None.
Proof.
  intros Hfg HN. unfold decodePacket_body, NewBundleFromData_rec.
  destruct ((len data <=? 0) || negb (Z.rem (len data) 4 =? 0));
    try (split; [reflexivity | discriminate]).
  destruct data as [|firstChar data'];
    try (split; [reflexivity | discriminate]).
  remember (firstChar :: data') as data eqn:Ed.
  destruct (Byte.eqb firstChar "/").
  - destruct (NewMessageFromData data) as [m [u|e|p]];
      split; (reflexivity || discriminate).
  - destruct (Byte.eqb firstChar "#");
      try (split; [reflexivity | discriminate]).
    destruct (Bundle_UnmarshalBinary_rec_ext f g N NewBundle data Hfg HN) as [E Hne].
    rewrite <- E.
    destruct (Bundle_UnmarshalBinary_rec f NewBundle data) as [[b [u|e|p]]|];
      try (split; [reflexivity | discriminate]).
    contradiction.
Qed.

Lemma decodePacket_fuel_stable (n m : nat) (data : list byte) :
  (length data < n)%nat -> (length data < m)%nat ->
  decodePacket_fuel n data = decodePacket_fuel m data
  /\ decodePacket_fuel n data <> None.
Proof.
  revert m data. induction n as [|n IH]; intros m data Hn Hm; [lia|].
  destruct m as [|m]; [lia|]. cbn [decodePacket_fuel].
  apply decodePacket_body_ext with (N := length data); [|lia].
  intros d Hd. apply IH; lia.
Qed.

Lemma decodePacket_fuel_enough (n : nat) (data : list byte) :
  (length data < n)%nat -> decodePacket_fuel n data = Some (decodePacket data).
Proof.
  intro Hn. unfold decodePacket.
  destruct (decodePacket_fuel_stable n (S (length data)) data)
    as [E Hne]; try lia.
  rewrite <- E. destruct (decodePacket_fuel n data); [reflexivity | contradiction].
Qed.

Lemma agree_decodePacket (data : list byte) :
  agree_below (length data) (decodePacket_fuel (length data))
              (fun d => Some (decodePacket d)).
Proof.
  intros d Hd. rewrite decodePacket_fuel_enough by assumption.
  split; [reflexivity | discriminate].
Qed.

(** The defining equations of the two mutually recursive decoders. *)
Lemma decodePacket_unfold (data : list byte) :
  decodePacket_body (fun d => Some (decodePacket d)) data
  = Some (decodePacket data).
Proof.
  destruct (decodePacket_body_ext _ _ _ data (agree_decodePacket data) (le_n _))
    as [E Hne].
  rewrite <- E. unfold decodePacket. cbn [decodePacket_fuel].
  destruct (decodePacket_body (decodePacket_fuel (length data)) data);
    [reflexivity | contradiction].
Qed.

Lemma Bundle_UnmarshalBinary_unfold (bun : Bundle) (data : list byte) :
  Bundle_UnmarshalBinary_rec (fun d => Some (decodePacket d)) bun data
  = Some (Bundle_UnmarshalBinary bun data).
Proof.
  destruct (Bundle_UnmarshalBinary_rec_ext _ _ _ bun data
              (agree_decodePacket data) (le_n _)) as [E Hne].
  rewrite <- E. unfold Bundle_UnmarshalBinary.
  destruct (Bundle_UnmarshalBinary_rec (decodePacket_fuel (length data)) bun data);
    [reflexivity | contradiction].
Qed.

(** ** decodePacket *)

Lemma NewBundleFromData_unfold (data : list byte) :
  NewBundleFromData_rec (fun d => Some (decodePacket d)) data
  = Some (NewBundleFromData data).
Proof.
  unfold NewBundleFromData_rec, NewBundleFromData.
  apply Bundle_UnmarshalBinary_unfold.
Qed.

(** C6. [decodePacket] rejects the empty buffer and every buffer whose
    length is not a multiple of 4; a non-empty aligned buffer is decoded
    by [NewMessageFromData] when it starts with '/', by
    [NewBundleFromData] when it starts with '#', and is rejected with an
    error for any other first byte. *)
Theorem decodePacket_framing (data : list byte) :
  (data = [] \/ len data mod 4 <> 0 ->
   decodePacket data
   = Err (Errorf "Packet data is not a multiple of 4 bytes"))
  /\ (forall firstChar rest,
         data = firstChar :: rest -> len data mod 4 = 0 ->
         (firstChar = "/"%byte ->
          decodePacket data
          = match NewMessageFromData data with
            | (m, Ok _) => Ok (PMessage m)
            | (_, Err e) => Err e
            | (_, Panic p) => Panic p
            end)
         /\ (firstChar = "#"%byte ->
             decodePacket data
             = match NewBundleFromData data with
               | (b, Ok _) => Ok (PBundle b)
               | (_, Err e) => Err e
               | (_, Panic p) => Panic p
               end)
         /\ (firstChar <> "/"%byte -> firstChar <> "#"%byte ->
             decodePacket data = Err (Errorf "Malformed packet"))).
Proof.
  pose proof (decodePacket_unfold data) as U.
  unfold decodePacket_body in U. rewrite NewBundleFromData_unfold in U.
  assert (Hrem : Z.rem (len data) 4 = len data mod 4).
  { apply Z.rem_mod_nonneg; unfold len; lia. }
  rewrite Hrem in U. split.
  - intros [-> | Hm].
    + reflexivity.
    + assert (E : (len data mod 4 =? 0) = false) by now apply Z.eqb_neq.
      rewrite E, orb_true_r in U. congruence.
  - intros firstChar rest -> Hm.
    assert (E1 : (len (firstChar :: rest) <=? 0) = false).
    { apply Z.leb_gt. unfold len. cbn [length]. lia. }
    rewrite E1, Hm in U. cbn [Z.eqb negb orb] in U.
    repeat split.
    + intros ->. cbn [Byte.eqb] in U.
      rewrite (Byte.byte_dec_lb (x := "/"%byte) eq_refl) in U.
      destruct (NewMessageFromData ("/"%byte :: rest)) as [m [u|e|p]];
        congruence.
    + intros ->.
      assert (Byte.eqb "#" "/" = false) as E by reflexivity.
      rewrite E, (Byte.byte_dec_lb (x := "#"%byte) eq_refl) in U.
      destruct (NewBundleFromData ("#"%byte :: rest)) as [b [u|e|p]];
        congruence.
    + intros H1 H2. apply eqb_byte_false in H1, H2.
      rewrite H1, H2 in U. congruence.
Qed.

Lemma decodePacket_framing_witness :
  decodePacket (str "/" ++ [x00; x00; x00] ++ str "," ++ [x00; x00; x00])
  = Ok (PMessage NewEmptyMessage).
Proof.
  destruct (decodePacket_framing
              (str "/" ++ [x00; x00; x00] ++ str "," ++ [x00; x00; x00]))
    as [_ H].
  destruct (H "/"%byte ([x00; x00; x00] ++ str "," ++ [x00; x00; x00])
              eq_refl eq_refl) as [Hm _].
  rewrite (Hm eq_refl). reflexivity.
Defined.

(** ** decodeString *)

Lemma decodeString_nonzero_padding (s rest : list byte) (j : nat) (b : byte) :
  ~ In x00 s -> (j < padding (len s + 1))%nat -> b <> x00 ->
  decodeString (s ++ x00 :: repeat x00 j ++ b :: rest) = Panic NilDereference.
Proof.
  intros Hs Hj Hb. rewrite decodeString_found by assumption.
  now rewrite popPadding_nonzero.
Qed.

Lemma decodeString_truncated_padding (s : list byte) :
  ~ In x00 s -> decodeString (s ++ [x00]) = Ok (s, []).
Proof.
  intro Hs. rewrite decodeString_found by assumption.
  now rewrite popPadding_nil.
Qed.

(** C3. On a string followed by a padding byte other than 0 the decoder
    does not return an error: it panics, calling [Error] on the nil error
    of a successful [ReadByte]. A string whose padding is cut short is
    accepted; a string without terminator is rejected with [io.EOF]. *)
Theorem decodeString_padding_defect :
  decodeString (str "a" ++ [x00; "x"%byte; x00]) = Panic NilDereference
  /\ decodeString (str "a" ++ [x00]) = Ok (str "a", [])
  /\ decodeString (str "abc") = Err EOF.
Proof. repeat split. Qed.

(** ** readArguments *)

Lemma readArguments_no_comma (first : byte) (rest : gostring) (buf : Buffer.t) :
  first <> ","%byte ->
  readArguments (first :: rest) buf = Err (Errorf "Malformed type tag string").
Proof.
  intro H. apply eqb_byte_false in H. unfold readArguments. now rewrite H.
Qed.

Lemma readArgumentsLoop_spec (tags : gostring) :
  forall buf acc args buf',
    readArgumentsLoop tags buf acc = Ok (args, buf') ->
    exists vals,
      args = acc ++ vals /\ length vals = length tags
      /\ forall i, nth_error tags i = Some "F"%byte ->
                   nth_error vals i = Some (ArgBool true).
Proof.
  induction tags as [|typeTag tags IH]; intros buf acc args buf' H.
  - cbn in H. injection H as <- <-. exists []. rewrite app_nil_r.
    repeat split. intros [|i]; discriminate.
  - cbn [readArgumentsLoop] in H.
    destruct (readArgument typeTag buf) as [[val buf1]|e|p] eqn:E;
      try discriminate.
    apply IH in H. destruct H as (vals & -> & Hl & HF).
    exists (val :: vals). rewrite <- app_assoc. cbn [app length].
    repeat split; [congruence|].
    intros [|i] Hi; cbn [nth_error] in *.
    + injection Hi as ->. cbn in E. congruence.
    + now apply HF.
Qed.

Lemma readArgumentsLoop_errors (tags : gostring) :
  forall buf acc e,
    readArgumentsLoop tags buf acc = Err e ->
    e = Errorf "Found malformed argument".
Proof.
  induction tags as [|typeTag tags IH]; intros buf acc e H.
  - discriminate.
  - cbn [readArgumentsLoop] in H.
    destruct (readArgument typeTag buf) as [[val buf1]|e'|p];
      try discriminate; [eauto | congruence].
Qed.

(** A successful call returns one argument per tag. *)
Lemma readArguments_length (tags : gostring) (buf buf' : Buffer.t)
      (args : list Argument) :
  readArguments (","%byte :: tags) buf = Ok (args, buf') ->
  length args = length tags.
Proof.
  cbn. intro H. apply readArgumentsLoop_spec in H.
  destruct H as (vals & -> & Hl & _). assumption.
Qed.

(** The first tag outside the alphabet ends the call with an error. *)
Lemma readArgument_unsupported (typeTag : byte) (buf : Buffer.t) :
  ~ In typeTag (str "TFNifsbhdt") ->
  readArgument typeTag buf = Err (Errorf "Found unsupported argument type").
Proof.
  intro H. destruct typeTag; try reflexivity; exfalso; apply H; cbn; tauto.
Qed.

(** C4. With an empty type tag string [readArguments] does not return an
    error: the slice expression [typeTagString[:1]] panics. *)
Theorem readArguments_empty_tag_panics :
  (forall buf, readArguments [] buf = Panic SliceBoundsOutOfRange)
  /\ Message_UnmarshalBinary NewEmptyMessage
       (str "/" ++ [x00; x00; x00] ++ [x00; x00; x00; x00])
     = (NewEmptyMessage, Panic SliceBoundsOutOfRange).
Proof. split; reflexivity. Qed.

(** C5. In a successful decode, the argument produced for a tag 'F' is
    the boolean [true]: the tag at index [S i] of the type tag string,
    index 0 being the comma, gives the argument at index [i]. *)
Theorem readArguments_F_decodes_true
        (typeTagString : gostring) (buf buf' : Buffer.t)
        (args : list Argument) (i : nat) :
  readArguments typeTagString buf = Ok (args, buf') ->
  nth_error typeTagString (S i) = Some "F"%byte ->
  nth_error args i = Some (ArgBool true).
Proof.
  unfold readArguments. destruct typeTagString as [|first rest];
    [discriminate|].
  destruct (negb (Byte.eqb first ",")); [discriminate|].
  intros H Hi. apply readArgumentsLoop_spec in H.
  destruct H as (vals & -> & _ & HF). cbn [app]. now apply HF.
Qed.

Lemma readArguments_F_decodes_true_witness :
  nth_error [ArgInt32 7; ArgBool true] 1 = Some (ArgBool true).
Proof.
  apply (readArguments_F_decodes_true (str ",iF") [x00; x00; x00; x07] []
           [ArgInt32 7; ArgBool true] 1); reflexivity.
Defined.

(** ** Fixed-width wrap-around *)

Lemma wrap_s_32_small (z : Z) :
  - 2147483648 <= z < 2147483648 -> wrap_s 32 z = z.
Proof.
  intro H. unfold wrap_s.
  change (2 ^ (32 - 1)) with 2147483648. change (2 ^ 32) with 4294967296.
  euclid.
Qed.

Lemma wrap_s_32_high (z : Z) :
  2147483648 <= z < 4294967296 -> wrap_s 32 z = z - 4294967296.
Proof.
  intro H. unfold wrap_s.
  change (2 ^ (32 - 1)) with 2147483648. change (2 ^ 32) with 4294967296.
  euclid.
Qed.

Lemma wrap_s_64_small (z : Z) :
  - 9223372036854775808 <= z < 9223372036854775808 -> wrap_s 64 z = z.
Proof.
  intro H. unfold wrap_s.
  change (2 ^ (64 - 1)) with 9223372036854775808.
  change (2 ^ 64) with 18446744073709551616.
  euclid.
Qed.

Lemma wrap_u_64_small (z : Z) :
  0 <= z < 18446744073709551616 -> wrap_u 64 z = z.
Proof.
  intro H. unfold wrap_u. change (2 ^ 64) with 18446744073709551616.
  now apply Z.mod_small.
Qed.

Lemma be_uint_4 (b0 b1 b2 b3 : byte) :
  be_uint [b0; b1; b2; b3]
  = byte_to_Z b0 * 16777216 + byte_to_Z b1 * 65536
    + byte_to_Z b2 * 256 + byte_to_Z b3.
Proof. unfold be_uint. cbn [be_acc]. ring. Qed.

(** ** decodeByteSlice *)

Lemma ReadInt32_cons (b0 b1 b2 b3 : byte) (rest : list byte) :
  binary.ReadInt32 (b0 :: b1 :: b2 :: b3 :: rest)
  = Ok (wrap_s 32 (be_uint [b0; b1; b2; b3]), rest).
Proof. reflexivity. Qed.

Lemma decodeByteSlice_negative (b0 b1 b2 b3 : byte) (rest : list byte) :
  128 <= byte_to_Z b0 ->
  let n := wrap_s 32 (be_uint [b0; b1; b2; b3]) in
  n < 0
  /\ (n <= -4 ->
      decodeByteSlice (b0 :: b1 :: b2 :: b3 :: rest)
      = Panic MakeSliceLenOutOfRange)
  /\ (-4 < n ->
      decodeByteSlice (b0 :: b1 :: b2 :: b3 :: rest)
      = Panic SliceBoundsOutOfRange).
Proof.
  intros Hb n.
  pose proof (byte_to_Z_range b0). pose proof (byte_to_Z_range b1).
  pose proof (byte_to_Z_range b2). pose proof (byte_to_Z_range b3).
  assert (Hn : n = be_uint [b0; b1; b2; b3] - 4294967296).
  { unfold n. apply wrap_s_32_high. rewrite be_uint_4. lia. }
  assert (Hneg : - 2147483648 <= n < 0) by (rewrite Hn, be_uint_4; lia).
  unfold decodeByteSlice. rewrite ReadInt32_cons. fold n. cbn [bind].
  assert ((n =? 0) = false) as -> by (apply Z.eqb_neq; lia).
  rewrite wrap_s_32_small by lia. rewrite and_not_3.
  split; [lia|]. split; intro Hc.
  - assert ((4 * ((n + 3) / 4) <? 0) = true) as -> by (apply Z.ltb_lt; euclid).
    reflexivity.
  - assert ((n + 3) / 4 = 0) as -> by euclid.
    cbn [Z.mul Z.ltb Z.compare Z.to_nat].
    assert ((n <? 0) = true) as Hlt by (apply Z.ltb_lt; lia).
    destruct rest as [|r rest]; cbn; rewrite Hlt; reflexivity.
Qed.

(** C10. [decodeByteSlice] is not a total function into (value, error):
    whenever the high bit of the length field is set the length is read
    as a negative [int32] and the call panics, in [make] when the rounded
    length is negative; the panic reaches the callers of the message and
    packet decoders. *)
Theorem decodeByteSlice_not_total :
  (forall b0 b1 b2 b3 rest,
      128 <= byte_to_Z b0 ->
      wrap_s 32 (be_uint [b0; b1; b2; b3]) < 0
      /\ is_panic (decodeByteSlice (b0 :: b1 :: b2 :: b3 :: rest)) = true
      /\ (wrap_s 32 (be_uint [b0; b1; b2; b3]) <= -4 ->
          decodeByteSlice (b0 :: b1 :: b2 :: b3 :: rest)
          = Panic MakeSliceLenOutOfRange))
  /\ decodeByteSlice [x80; x00; x00; x00] = Panic MakeSliceLenOutOfRange
  /\ Message_UnmarshalBinary NewEmptyMessage negative_blob_message
     = (NewEmptyMessage, Panic MakeSliceLenOutOfRange)
  /\ decodePacket negative_blob_message = Panic MakeSliceLenOutOfRange.
Proof.
  split; [|repeat split].
  intros b0 b1 b2 b3 rest Hb.
  destruct (decodeByteSlice_negative b0 b1 b2 b3 rest Hb) as (Hn & H1 & H2).
  cbv zeta in *. repeat split; auto.
  destruct (Z_le_gt_dec (wrap_s 32 (be_uint [b0; b1; b2; b3])) (-4)) as [Hc|Hc].
  - now rewrite H1.
  - rewrite H2; [reflexivity | lia].
Qed.

Lemma decodeByteSlice_not_total_witness :
  is_panic (decodeByteSlice [xff; xff; xff; xfe; x00]) = true.
Proof.
  destruct decodeByteSlice_not_total as [H _].
  apply (H xff xff xff xfe [x00]). vm_compute. discriminate.
Defined.

(** ** Message round trip *)

(** The tag 'F' at work on a whole message: a message holding the boolean
    [false] is marshalled with the tag 'F', and unmarshalling the bytes
    gives a message holding [true]. *)
Lemma message_false_roundtrip_fails :
  let m := mkMessage (str "/") [ArgBool false] in
  let data := str "/" ++ [x00; x00; x00] ++ str ",F" ++ [x00; x00] in
  Message_MarshalBinary m = Ok data
  /\ Message_UnmarshalBinary NewEmptyMessage data
     = (mkMessage (str "/") [ArgBool true], Ok tt)
  /\ ~ Message_Equals (mkMessage (str "/") [ArgBool true]) m.
Proof.
  cbv zeta. repeat split. intros [_ H]. discriminate.
Qed.

(** ** Address patterns *)

(** C2. The six cases, as the compiled matcher decides them. The address
    /foo/12 does match the pattern /foo/?: [MatchString] looks for a match
    anywhere in the address, and /foo/1 is one. *)
Theorem dispatch_pattern_cases :
  dispatched (str "/foo/?") (str "/foo/1") = Some [str "/foo/?"]
  /\ dispatched (str "/foo/?") (str "/foo/12") = Some [str "/foo/?"]
  /\ dispatched (str "/foo/*") (str "/foo/bar") = Some [str "/foo/*"]
  /\ dispatched (str "/a/{x,y,z}") (str "/a/x") = Some [str "/a/{x,y,z}"]
  /\ dispatched (str "/a/{x,y,z}") (str "/a/y") = Some [str "/a/{x,y,z}"]
  /\ dispatched (str "/a/{x,y,z}") (str "/a/q") = Some [].
Proof. repeat split; vm_compute; reflexivity. Qed.

(** ** Time tags *)

Lemma lor_shiftl_32 (a b : Z) :
  0 <= b < 4294967296 -> Z.lor (Z.shiftl a 32) b = a * 4294967296 + b.
Proof.
  intro Hb. rewrite Z.shiftl_mul_pow2 by lia.
  assert (Hl : Z.land (a * 2 ^ 32) b = 0).
  { apply Z.bits_inj'. intros n Hn. rewrite Z.land_spec, Z.bits_0.
    destruct (Z_lt_le_dec n 32) as [Hlt|Hge].
    - now rewrite Z.mul_pow2_bits_low.
    - rewrite <- (Z.mod_small b (2 ^ 32)) by (change (2 ^ 32) with 4294967296; lia).
      rewrite Z.mod_pow2_bits_high by lia. apply andb_false_r. }
  rewrite <- Z.lxor_lor, <- Z.add_nocarry_lxor by assumption.
  reflexivity.
Qed.

Lemma land_mask_32 (v : Z) : Z.land v 0xFFFFFFFF = v mod 4294967296.
Proof.
  change 0xFFFFFFFF with (Z.ones 32). now rewrite Z.land_ones by lia.
Qed.

Lemma shiftr_32 (v : Z) : Z.shiftr v 32 = v / 4294967296.
Proof. now rewrite Z.shiftr_div_pow2 by lia. Qed.

(** The 64-bit value written for a time tag that is not immediate. *)
Lemma encodeTimeTag_value (t : time.Time) :
  0 <= time.nsec t < 1000000000 ->
  0 <= time.sec t + unixOSCEpochOffset < 4294967296 ->
  encodeTimeTag (NewTimeTag t)
  = binary.Write64 ((time.sec t + unixOSCEpochOffset) * 4294967296
                    + time.nsec t).
Proof.
  intros Hn Hs. unfold encodeTimeTag, NewTimeTag. cbn [Immediate tt_time].
  unfold time.Unix_of, time.UnixNano, nanosPerSecond, unixOSCEpochOffset in *.
  rewrite (wrap_s_64_small (time.sec t + 2208988800)) by lia.
  rewrite (wrap_u_64_small (time.sec t + 2208988800)) by lia.
  rewrite (wrap_s_64_small (time.sec t * 1000000000 + time.nsec t)) by lia.
  rewrite (wrap_s_64_small (time.sec t * 1000000000 + time.nsec t
                            + 2208988800 * 1000000000)) by lia.
  rewrite (wrap_u_64_small (time.sec t * 1000000000 + time.nsec t
                            + 2208988800 * 1000000000)) by lia.
  rewrite (wrap_u_64_small ((time.sec t + 2208988800) * 1000000000)) by lia.
  replace (time.sec t * 1000000000 + time.nsec t + 2208988800 * 1000000000
           - (time.sec t + 2208988800) * 1000000000)
    with (time.nsec t) by ring.
  rewrite (wrap_u_64_small (time.nsec t)) by lia.
  rewrite land_mask_32, (Z.mod_small (time.nsec t)) by lia.
  rewrite Z.shiftl_mul_pow2 by lia. change (2 ^ 32) with 4294967296.
  rewrite wrap_u_64_small by lia.
  rewrite <- lor_shiftl_32 by lia.
  rewrite Z.shiftl_mul_pow2 by lia. reflexivity.
Qed.

Lemma decodeTimeTag_Write64 (v : Z) :
  0 <= v < 18446744073709551616 ->
  decodeTimeTag (binary.Write64 v) = Ok (timeTagOfUint64 v, []).
Proof.
  intro Hv. unfold decodeTimeTag, binary.ReadUint64, binary.Write64.
  rewrite <- (app_nil_r (be_bytes 8 v)).
  rewrite ReadFull_app by apply length_be_bytes.
  cbn [bind]. rewrite be_uint_be_bytes.
  change (256 ^ Z.of_nat 8) with 18446744073709551616.
  now rewrite Z.mod_small.
Qed.

Lemma timeTagOfUint64_value (s n : Z) :
  0 <= n < 1000000000 -> 0 <= s < 4294967296 -> ~ (s = 0 /\ n = 1) ->
  timeTagOfUint64 (s * 4294967296 + n)
  = NewTimeTag (time.mkTime (s - unixOSCEpochOffset) n time.UTC).
Proof.
  intros Hn Hs Hne. unfold timeTagOfUint64, timeTagImmediate.
  assert ((s * 4294967296 + n =? 1) = false) as -> by (apply Z.eqb_neq; lia).
  cbv zeta. rewrite shiftr_32, land_mask_32.
  assert ((s * 4294967296 + n) / 4294967296 = s) as -> by euclid.
  assert ((s * 4294967296 + n) mod 4294967296 = n) as -> by euclid.
  unfold unixOSCEpochOffset.
  rewrite (wrap_s_64_small s), (wrap_s_64_small (s - 2208988800)),
    (wrap_s_64_small n) by lia.
  unfold time.Unix.
  assert ((n <? 0) = false) as -> by (apply Z.ltb_ge; lia).
  assert ((1000000000 <=? n) = false) as -> by (apply Z.leb_gt; lia).
  reflexivity.
Qed.

(** C7, as stated, fails: the time tag one nanosecond after the OSC epoch
    is written as the 64-bit value 1, which is read back as the immediate
    time tag. *)
Lemma timeTag_roundtrip_counterexample :
  encodeTimeTag (NewTimeTag osc_epoch_plus_1ns) = immediate_bytes
  /\ decodeTimeTag (encodeTimeTag (NewTimeTag osc_epoch_plus_1ns))
     = Ok (NewImmediateTimeTag, [])
  /\ decodeTimeTag (encodeTimeTag (NewTimeTag osc_epoch_plus_1ns))
     <> Ok (NewTimeTag osc_epoch_plus_1ns, []).
Proof.
  repeat split. vm_compute. discriminate.
Qed.

(** C7, amended. Every immediate time tag is written as the bytes
    00 00 00 00 00 00 00 01 and read back as [NewImmediateTimeTag]; a time
    tag that is not immediate is read back unchanged when its time is in
    UTC, its nanoseconds lie within the second, its seconds since the OSC
    epoch fit 32 bits, and it is not one nanosecond after the OSC epoch. *)
Theorem timeTag_roundtrip (timeTag : TimeTag) :
  (Immediate timeTag = true ->
   encodeTimeTag timeTag = immediate_bytes
   /\ decodeTimeTag (encodeTimeTag timeTag) = Ok (NewImmediateTimeTag, [])
   /\ (tt_time timeTag = time.zero ->
       decodeTimeTag (encodeTimeTag timeTag) = Ok (timeTag, [])))
  /\ (Immediate timeTag = false ->
      time.loc (tt_time timeTag) = time.UTC ->
      0 <= time.nsec (tt_time timeTag) < 1000000000 ->
      0 <= time.sec (tt_time timeTag) + unixOSCEpochOffset < 2 ^ 32 ->
      ~ (time.sec (tt_time timeTag) + unixOSCEpochOffset = 0
         /\ time.nsec (tt_time timeTag) = 1) ->
      decodeTimeTag (encodeTimeTag timeTag) = Ok (timeTag, [])).
Proof.
  destruct timeTag as [t imm]. cbn [Immediate tt_time]. split.
  - intros ->. unfold encodeTimeTag. cbn [Immediate].
    repeat split. intros ->. reflexivity.
  - intros -> Hloc Hn Hs Hne. change (2 ^ 32) with 4294967296 in Hs.
    change (mkTimeTag t false) with (NewTimeTag t).
    rewrite encodeTimeTag_value by assumption.
    rewrite decodeTimeTag_Write64 by lia.
    rewrite timeTagOfUint64_value by assumption.
    destruct t as [s n l]. cbn [time.sec time.nsec time.loc] in *. subst l.
    replace (s + unixOSCEpochOffset - unixOSCEpochOffset) with s by ring.
    reflexivity.
Qed.

Lemma timeTag_roundtrip_witness :
  decodeTimeTag
    (encodeTimeTag (NewTimeTag (time.mkTime 1514764800 500000000 time.UTC)))
  = Ok (NewTimeTag (time.mkTime 1514764800 500000000 time.UTC), []).
Proof.
  apply (proj2 (timeTag_roundtrip
                  (NewTimeTag (time.mkTime 1514764800 500000000 time.UTC))));
    cbn; try reflexivity; try lia.
Defined.

(** ** Bundle.UnmarshalBinary *)

Lemma unmarshalElements_fuel (fuel1 fuel2 : nat) (buf : Buffer.t)
      (els : list Packet) :
  (length buf < fuel1)%nat -> (length buf < fuel2)%nat ->
  unmarshalElements fuel1 buf els = unmarshalElements fuel2 buf els
  /\ unmarshalElements fuel1 buf els <> None.
Proof.
  intros H1 H2. unfold unmarshalElements.
  apply unmarshalLoop_ext with (N := length buf); try lia.
  intros d _. split; [reflexivity | discriminate].
Qed.

(** One turn of the loop on a length followed by that many bytes. *)
Lemma unmarshalElements_child (fuel : nat) (cnt child rest : list byte)
      (acc : list Packet) :
  length cnt = 4%nat -> be_uint cnt = len child ->
  unmarshalElements (S fuel) (cnt ++ child ++ rest) acc
  = match decodePacket child with
    | Ok p => unmarshalElements fuel rest (acc ++ [p])
    | Err e => Some (Err e)
    | Panic p => Some (Panic p)
    end.
Proof.
  intros Hc Hl. unfold unmarshalElements. cbn [unmarshalLoop].
  rewrite ReadUint32_app by assumption. rewrite Hl.
  unfold len at 1. rewrite Nat2Z.id, Read_exact.
  assert (E : (wrap_u 32 (len child) =? len child) = true).
  { apply Z.eqb_eq. unfold wrap_u. apply Z.mod_small. rewrite <- Hl.
    pose proof (be_uint_range cnt) as Hr. unfold len in Hr. rewrite Hc in Hr.
    change (256 ^ Z.of_nat 4) with (2 ^ 32) in Hr. lia. }
  rewrite E. cbn [negb]. destruct (decodePacket child); reflexivity.
Qed.

Lemma unmarshalElements_prefix (pre : list byte) (els : list Packet) :
  bundle_elements pre els ->
  forall fuel acc rest,
    (length (pre ++ rest) < fuel)%nat ->
    unmarshalElements fuel (pre ++ rest) acc
    = unmarshalElements (S (length rest)) rest (acc ++ els).
Proof.
  induction 1 as [|cnt child rest0 p ps Hc Hl Hp _ IH]; intros fuel acc rest Hf.
  - rewrite app_nil_r. cbn [app] in *.
    apply unmarshalElements_fuel; lia.
  - destruct fuel as [|fuel]; [lia|].
    rewrite <- !app_assoc in *. rewrite !length_app in Hf.
    rewrite unmarshalElements_child, Hp by assumption.
    rewrite IH by (rewrite length_app; lia).
    now rewrite <- app_assoc.
Qed.

Lemma ReadUint32_EOF (buf : list byte) :
  binary.ReadUint32 buf = Err EOF -> buf = [].
Proof.
  unfold binary.ReadUint32, binary.ReadFull.
  destruct (Nat.leb 4 (length buf)); [discriminate|].
  destruct buf; [reflexivity | discriminate].
Qed.

Lemma unmarshalElements_ok (fuel : nat) :
  forall buf acc res,
    unmarshalElements fuel buf acc = Some (Ok res) ->
    exists els, res = acc ++ els /\ bundle_elements buf els.
Proof.
  unfold unmarshalElements.
  induction fuel as [|fuel IH]; intros buf acc res H; [discriminate|].
  cbn [unmarshalLoop] in H.
  destruct (binary.ReadUint32 buf) as [[count buf1]|e|p] eqn:E.
  - apply ReadUint32_inv in E. destruct E as (cnt & -> & Hc & -> & Hr).
    destruct (Buffer.Read (Z.to_nat (be_uint cnt)) buf1)
      as [[[data k] err] buf2] eqn:ER.
    destruct err as [e|]; [discriminate|].
    destruct (wrap_u 32 k =? be_uint cnt) eqn:EK; cbn [negb] in H;
      [|discriminate].
    pose proof (Read_count_bound _ _ _ _ _ _ ER) as Hk.
    rewrite Z2Nat.id in Hk by lia.
    apply Z.eqb_eq in EK. unfold wrap_u in EK.
    rewrite Z.mod_small in EK by lia. subst k.
    rewrite <- (Z2Nat.id (be_uint cnt)) in ER at 2 by lia.
    apply Read_full_inv in ER. destruct ER as [-> Hd].
    destruct (decodePacket data) as [p|e|p] eqn:Ep; try discriminate.
    apply IH in H. destruct H as (els & -> & Hels).
    exists (p :: els). rewrite <- app_assoc. split; [reflexivity|].
    apply elements_child; auto. unfold len. rewrite Hd. lia.
  - destruct e; try discriminate. injection H as <-.
    apply ReadUint32_EOF in E. subst buf.
    exists []. rewrite app_nil_r. split; [reflexivity | constructor].
  - discriminate.
Qed.

Lemma unmarshalElements_end (fuel : nat) (acc : list Packet) :
  unmarshalElements (S fuel) [] acc = Some (Ok acc).
Proof. reflexivity. Qed.

Lemma unmarshalElements_short (fuel : nat) (cnt tail : list byte)
      (acc : list Packet) :
  length cnt = 4%nat -> len tail < be_uint cnt ->
  unmarshalElements (S fuel) (cnt ++ tail) acc
  = Some (Err (Errorf "Malformed bundle")).
Proof.
  intros Hc Hl. unfold unmarshalElements. cbn [unmarshalLoop].
  rewrite ReadUint32_app by assumption.
  pose proof (be_uint_range cnt) as Hr. unfold len in Hr. rewrite Hc in Hr.
  change (256 ^ Z.of_nat 4) with (2 ^ 32) in Hr.
  destruct (Read_short (Z.to_nat (be_uint cnt)) tail)
    as (data & k & err & buf' & -> & Hk); [unfold len in Hl; lia|].
  destruct err as [e|]; [reflexivity|].
  destruct Hk as [Hk | Hk]; [congruence|].
  rewrite Z2Nat.id in Hk by lia.
  assert (E : (wrap_u 32 k =? be_uint cnt) = false).
  { apply Z.eqb_neq. unfold wrap_u. rewrite Z.mod_small; lia. }
  now rewrite E.
Qed.

Lemma decodeString_bundleString (rest : list byte) :
  decodeString (bundleString ++ rest) = Ok (str "#bundle", rest).
Proof. reflexivity. Qed.

Lemma decodeString_bundle_inv (data buf : list byte) :
  decodeString data = Ok (str "#bundle", buf) -> data = bundleString ++ buf.
Proof.
  intro H.
  destruct (split_first x00 data) as [Hn | (s & rest & -> & Hs)].
  - rewrite decodeString_not_found in H by assumption. discriminate.
  - rewrite decodeString_found in H by assumption.
    destruct (popPadding (padding (len s + 1)) rest) as [[u buf']| |] eqn:E;
      try discriminate.
    cbn [bind] in H. injection H as -> ->.
    change (padding (len (str "#bundle") + 1)) with 0%nat in E.
    cbn in E. inversion E; subst. reflexivity.
Qed.

Lemma decodeTimeTag_8 (ttb : list byte) :
  length ttb = 8%nat ->
  decodeTimeTag ttb = Ok (timeTagOfUint64 (be_uint ttb), []).
Proof.
  intro Hl. unfold decodeTimeTag, binary.ReadUint64.
  rewrite <- (app_nil_r ttb) at 1. now rewrite ReadFull_app.
Qed.

(** The decoder on a buffer that has the bundle header. *)
Lemma Bundle_UnmarshalBinary_header (bun : Bundle) (ttb body : list byte)
      (r : result (list Packet)) :
  length ttb = 8%nat ->
  unmarshalElements (S (length body)) body [] = Some r ->
  Bundle_UnmarshalBinary bun (bundleString ++ ttb ++ body)
  = match r with
    | Ok els => (mkBundle (timeTagOfUint64 (be_uint ttb)) els, Ok tt)
    | Err e => (bun, Err e)
    | Panic p => (bun, Panic p)
    end.
Proof.
  intros Hl Hr.
  pose proof (Bundle_UnmarshalBinary_unfold bun (bundleString ++ ttb ++ body)) as U.
  unfold Bundle_UnmarshalBinary_rec, Buffer.NewBuffer in U.
  rewrite decodeString_bundleString in U.
  change (negb (eqb_bytes (str "#bundle") (str "#bundle"))) with false in U.
  cbv iota in U. rewrite decodeTimeTag_app, decodeTimeTag_8 in U by assumption.
  cbn [bind] in U. fold (unmarshalElements (S (length body)) body []) in U.
  rewrite Hr in U. destruct r; congruence.
Qed.

Lemma Bundle_UnmarshalBinary_ok_inv (bun bun' : Bundle) (data : list byte) :
  Bundle_UnmarshalBinary bun data = (bun', Ok tt) ->
  exists ttb body timeTag els,
    data = bundleString ++ ttb ++ body /\ length ttb = 8%nat
    /\ decodeTimeTag ttb = Ok (timeTag, [])
    /\ bundle_elements body els
    /\ bun' = mkBundle timeTag els.
Proof.
  intro H. pose proof (Bundle_UnmarshalBinary_unfold bun data) as U.
  rewrite H in U. unfold Bundle_UnmarshalBinary_rec, Buffer.NewBuffer in U.
  destruct (decodeString data) as [[identifier buf]|e|p] eqn:E1;
    try discriminate.
  destruct (eqb_bytes identifier (str "#bundle")) eqn:Ei; cbn [negb] in U;
    [|discriminate].
  apply eqb_bytes_true in Ei. subst identifier.
  apply decodeString_bundle_inv in E1. subst data.
  destruct (decodeTimeTag buf) as [[timeTag buf2]|e|p] eqn:E2;
    try discriminate.
  apply decodeTimeTag_inv in E2. destruct E2 as (ttb & -> & Hl & Ht).
  fold (unmarshalElements (S (length buf2)) buf2 []) in U.
  destruct (unmarshalElements (S (length buf2)) buf2 []) as [[els|e|p]|] eqn:E3;
    try discriminate.
  apply unmarshalElements_ok in E3. destruct E3 as (els' & -> & Hels).
  injection U as <-. exists ttb, buf2, timeTag, els'. auto.
Qed.

Lemma Bundle_UnmarshalBinary_failure (bun bun' : Bundle) (data : list byte)
      (r : result unit) :
  Bundle_UnmarshalBinary bun data = (bun', r) -> r <> Ok tt -> bun' = bun.
Proof.
  intros H Hr. pose proof (Bundle_UnmarshalBinary_unfold bun data) as U.
  rewrite H in U. unfold Bundle_UnmarshalBinary_rec, Buffer.NewBuffer in U.
  destruct (decodeString data) as [[identifier buf]|e|p];
    try (injection U as <- <-; reflexivity).
  destruct (negb (eqb_bytes identifier (str "#bundle")));
    try (injection U as <- <-; reflexivity).
  destruct (decodeTimeTag buf) as [[timeTag buf2]|e|p];
    try (injection U as <- <-; reflexivity).
  destruct (unmarshalLoop _ (S (length buf2)) buf2 []) as [[els|e|p]|];
    try discriminate; try (injection U as <- <-; reflexivity).
  injection U as _ <-. contradiction.
Qed.

Lemma unmarshalElements_total (buf : Buffer.t) (acc : list Packet) :
  exists r, unmarshalElements (S (length buf)) buf acc = Some r.
Proof.
  destruct (unmarshalElements_fuel (S (length buf)) (S (length buf)) buf acc)
    as [_ Hne]; try lia.
  destruct (unmarshalElements (S (length buf)) buf acc) as [r|];
    [eauto | contradiction].
Qed.

(** The decoder on a header, some well-formed elements and whatever comes
    next. *)
Lemma Bundle_UnmarshalBinary_prefix (bun : Bundle) (ttb pre rest : list byte)
      (els : list Packet) (r : result (list Packet)) :
  length ttb = 8%nat -> bundle_elements pre els ->
  unmarshalElements (S (length rest)) rest els = Some r ->
  Bundle_UnmarshalBinary bun (bundleString ++ ttb ++ pre ++ rest)
  = match r with
    | Ok els' => (mkBundle (timeTagOfUint64 (be_uint ttb)) els', Ok tt)
    | Err e => (bun, Err e)
    | Panic p => (bun, Panic p)
    end.
Proof.
  intros Hl Hpre Hr. apply Bundle_UnmarshalBinary_header; [assumption|].
  rewrite (unmarshalElements_prefix pre els Hpre) by lia.
  assumption.
Qed.

(** C8. [Bundle.UnmarshalBinary] succeeds exactly on the buffers made of
    the identifier "#bundle\0", an 8-byte time tag and a sequence of
    elements, each a 32-bit length followed by that many bytes that
    [decodePacket] decodes; the end of the buffer where a length would
    start ends the sequence. The bundle then holds the decoded time tag
    and the decoded packets in order. When the call does not succeed the
    receiver is left as it was; a length followed by fewer bytes than it
    announces, and an element that [decodePacket] rejects, both make the
    call return an error. *)
Theorem Bundle_UnmarshalBinary_spec (bun : Bundle) (data : list byte) :
  (forall bun',
      Bundle_UnmarshalBinary bun data = (bun', Ok tt) <->
      exists ttb body timeTag els,
        data = bundleString ++ ttb ++ body /\ length ttb = 8%nat
        /\ decodeTimeTag ttb = Ok (timeTag, [])
        /\ bundle_elements body els
        /\ bun' = mkBundle timeTag els)
  /\ (forall bun' r,
         Bundle_UnmarshalBinary bun data = (bun', r) -> r <> Ok tt ->
         bun' = bun)
  /\ (forall ttb pre els cnt tail,
         data = bundleString ++ ttb ++ pre ++ cnt ++ tail ->
         length ttb = 8%nat -> bundle_elements pre els ->
         length cnt = 4%nat -> len tail < be_uint cnt ->
         Bundle_UnmarshalBinary bun data
         = (bun, Err (Errorf "Malformed bundle")))
  /\ (forall ttb pre els cnt child rest e,
         data = bundleString ++ ttb ++ pre ++ cnt ++ child ++ rest ->
         length ttb = 8%nat -> bundle_elements pre els ->
         length cnt = 4%nat -> be_uint cnt = len child ->
         decodePacket child = Err e ->
         Bundle_UnmarshalBinary bun data = (bun, Err e)).
Proof.
  split; [intro bun'; split | split; [|split]].
  - intro H. exact (Bundle_UnmarshalBinary_ok_inv bun bun' data H).
  - intros (ttb & body & timeTag & els & -> & Hl & Ht & Hels & ->).
    rewrite decodeTimeTag_8 in Ht by assumption. injection Ht as <-.
    rewrite <- (app_nil_r body).
    rewrite (Bundle_UnmarshalBinary_prefix bun ttb body [] els (Ok els));
      auto.
  - intros bun' r. exact (Bundle_UnmarshalBinary_failure bun bun' data r).
  - intros ttb pre els cnt tail -> Hl Hpre Hc Ht.
    rewrite (Bundle_UnmarshalBinary_prefix bun ttb pre (cnt ++ tail) els
               (Err (Errorf "Malformed bundle"))); auto.
    now apply unmarshalElements_short.
  - intros ttb pre els cnt child rest e -> Hl Hpre Hc Hlen He.
    rewrite (Bundle_UnmarshalBinary_prefix bun ttb pre (cnt ++ child ++ rest)
               els (Err e)); auto.
    rewrite unmarshalElements_child, He by assumption. reflexivity.
Qed.

Lemma Bundle_UnmarshalBinary_spec_witness :
  Bundle_UnmarshalBinary NewBundle
    (bundleString ++ immediate_bytes ++ [] ++ [x00; x00; x00; x10] ++ [x23])
  = (NewBundle, Err (Errorf "Malformed bundle")).
Proof.
  destruct (Bundle_UnmarshalBinary_spec NewBundle
              (bundleString ++ immediate_bytes ++ []
               ++ [x00; x00; x00; x10] ++ [x23]))
    as (_ & _ & Hshort & _).
  apply (Hshort immediate_bytes [] [] [x00; x00; x00; x10] [x23]);
    try reflexivity.
  constructor.
Defined.


(** ** Round trip of the messages that the wire format can carry *)

Lemma decodeTimeTag_encodeTimeTag (timeTag : TimeTag) :
  canonical_timeTag timeTag ->
  decodeTimeTag (encodeTimeTag timeTag) = Ok (timeTag, []).
Proof.
  intros [-> | (Hi & Hloc & Hn & Hs & Hne)]; [reflexivity|].
  destruct timeTag as [t imm]. cbn [Immediate tt_time] in *. subst imm.
  change (mkTimeTag t false) with (NewTimeTag t).
  rewrite encodeTimeTag_value by assumption.
  rewrite decodeTimeTag_Write64 by lia.
  rewrite timeTagOfUint64_value by assumption.
  destruct t as [s n l]. cbn [time.sec time.nsec time.loc] in *. subst l.
  replace (s + unixOSCEpochOffset - unixOSCEpochOffset) with s by ring.
  reflexivity.
Qed.

Lemma length_encodeTimeTag (timeTag : TimeTag) :
  length (encodeTimeTag timeTag) = 8%nat.
Proof. unfold encodeTimeTag, binary.Write64. apply length_be_bytes. Qed.

Lemma ReadFull_be_bytes (k : nat) (v : Z) (rest : list byte) :
  binary.ReadFull k (be_bytes k v ++ rest) = Ok (be_bytes k v, rest).
Proof. apply ReadFull_app, length_be_bytes. Qed.

Lemma decodeByteSlice_encodeByteSlice (b rest : list byte) :
  b <> [] -> len b + 3 < 2147483648 ->
  decodeByteSlice (encodeByteSlice b ++ rest) = Ok (b, rest).
Proof.
  intros Hb Hl. unfold encodeByteSlice, decodeByteSlice, binary.ReadInt32,
    binary.Write32.
  assert (Hpos : 0 < len b).
  { unfold len. destruct b; [contradiction | cbn [length]; lia]. }
  rewrite (wrap_s_32_small (len b)) by lia.
  rewrite padTo32Bits_eq, <- !app_assoc, ReadFull_be_bytes. cbn [bind].
  rewrite be_uint_be_bytes. change (256 ^ Z.of_nat 4) with 4294967296.
  rewrite (Z.mod_small (len b)) by lia.
  rewrite (wrap_s_32_small (len b)), (wrap_s_32_small (len b + 3)) by lia.
  assert ((len b =? 0) = false) as -> by (apply Z.eqb_neq; lia).
  set (pad := padding (len (be_bytes 4 (len b) ++ b))).
  assert (Hpad : and_not (len b + 3) 3 = Z.of_nat (length (b ++ repeat x00 pad))).
  { rewrite length_app, repeat_length, Nat2Z.inj_add.
    unfold pad. rewrite padding_spec.
    replace (len (be_bytes 4 (len b) ++ b)) with (4 + len b)
      by (unfold len; rewrite length_app, length_be_bytes; lia).
    rewrite and_not_3. fold (len b). euclid. }
  rewrite Hpad, Nat2Z.id.
  assert ((Z.of_nat (length (b ++ repeat x00 pad)) <? 0) = false) as ->
      by (apply Z.ltb_ge; lia).
  rewrite app_assoc, Read_exact. unfold len at 1.
  rewrite Z.eqb_refl. cbn [negb].
  assert ((len b <? 0) = false) as -> by (apply Z.ltb_ge; lia).
  assert ((Z.of_nat (length (b ++ repeat x00 pad)) <? len b) = false) as ->.
  { apply Z.ltb_ge. unfold len. rewrite length_app. lia. }
  cbn [orb]. unfold len. rewrite Nat2Z.id, firstn_app_len. reflexivity.
Qed.

Lemma readArgument_payload (a : Argument) (rest : list byte) :
  canonical a ->
  exists t, tagOf a = [t]
            /\ ~ In x00 (tagOf a)
            /\ typeTag a = Ok [t]
            /\ encodeArgument a = Ok (payloadOf a)
            /\ readArgument t (payloadOf a ++ rest) = Ok (a, rest).
Proof.
  assert (Hnz : forall t : byte, t <> x00 -> ~ In x00 [t]).
  { intros t Ht [H|[]]. congruence. }
  destruct a as [|v|bits|s|b|b|v|bits|timeTag|]; cbn [canonical]; intro Hc;
    unfold tagOf, payloadOf; cbn [typeTag encodeArgument].
  - exists "N"%byte. repeat split; auto. apply Hnz; discriminate.
  - exists "i"%byte. repeat split; auto; [apply Hnz; discriminate|].
    cbn [readArgument]. unfold binary.ReadInt32, binary.Write32.
    rewrite ReadFull_be_bytes. cbn [bind]. rewrite be_uint_be_bytes.
    change (256 ^ Z.of_nat 4) with 4294967296.
    do 3 f_equal. unfold wrap_s.
    change (2 ^ (32 - 1)) with 2147483648. change (2 ^ 32) with 4294967296.
    euclid.
  - exists "f"%byte. repeat split; auto; [apply Hnz; discriminate|].
    cbn [readArgument]. unfold binary.ReadUint32, binary.Write32.
    rewrite ReadFull_be_bytes. cbn [bind]. rewrite be_uint_be_bytes.
    change (256 ^ Z.of_nat 4) with 4294967296.
    now rewrite Z.mod_small.
  - exists "s"%byte. repeat split; auto; [apply Hnz; discriminate|].
    cbn [readArgument]. now rewrite decodeString_encodeString.
  - exists "b"%byte. destruct Hc as [Hb Hl].
    repeat split; auto; [apply Hnz; discriminate|].
    cbn [readArgument]. now rewrite decodeByteSlice_encodeByteSlice.
  - subst b. exists "T"%byte. repeat split; auto. apply Hnz; discriminate.
  - exists "h"%byte. repeat split; auto; [apply Hnz; discriminate|].
    cbn [readArgument]. unfold binary.ReadInt64, binary.Write64.
    rewrite ReadFull_be_bytes. cbn [bind]. rewrite be_uint_be_bytes.
    change (256 ^ Z.of_nat 8) with 18446744073709551616.
    do 3 f_equal. unfold wrap_s.
    change (2 ^ (64 - 1)) with 9223372036854775808.
    change (2 ^ 64) with 18446744073709551616.
    euclid.
  - exists "d"%byte. repeat split; auto; [apply Hnz; discriminate|].
    cbn [readArgument]. unfold binary.ReadUint64, binary.Write64.
    rewrite ReadFull_be_bytes. cbn [bind]. rewrite be_uint_be_bytes.
    change (256 ^ Z.of_nat 8) with 18446744073709551616.
    now rewrite Z.mod_small.
  - exists "t"%byte. repeat split; auto; [apply Hnz; discriminate|].
    cbn [readArgument].
    rewrite decodeTimeTag_app by apply length_encodeTimeTag.
    now rewrite decodeTimeTag_encodeTimeTag.
  - contradiction.
Qed.

Lemma typeTagStringLoop_canonical (args : list Argument) :
  Forall canonical args ->
  forall acc,
    typeTagStringLoop args acc = Ok (acc ++ flat_map tagOf args).
Proof.
  induction 1 as [|a args Ha _ IH]; intro acc; cbn [typeTagStringLoop flat_map].
  - now rewrite app_nil_r.
  - destruct (readArgument_payload a [] Ha) as (t & Ht & _ & Htt & _).
    rewrite Htt, Ht. cbn [bind]. rewrite IH, <- app_assoc. reflexivity.
Qed.

Lemma marshalArgumentsLoop_canonical (args : list Argument) :
  Forall canonical args ->
  forall buf,
    marshalArgumentsLoop args buf = Ok (buf ++ flat_map payloadOf args).
Proof.
  induction 1 as [|a args Ha _ IH]; intro buf;
    cbn [marshalArgumentsLoop flat_map].
  - now rewrite app_nil_r.
  - destruct (readArgument_payload a [] Ha) as (t & _ & _ & _ & He & _).
    rewrite He. cbn [bind]. rewrite IH, <- app_assoc. reflexivity.
Qed.

Lemma readArgumentsLoop_canonical (args : list Argument) :
  Forall canonical args ->
  forall acc rest,
    readArgumentsLoop (flat_map tagOf args)
                      (flat_map payloadOf args ++ rest) acc
    = Ok (acc ++ args, rest).
Proof.
  induction 1 as [|a args Ha _ IH]; intros acc rest;
    cbn [readArgumentsLoop flat_map].
  - now rewrite app_nil_r.
  - destruct (readArgument_payload a (flat_map payloadOf args ++ rest) Ha)
      as (t & Ht & _ & _ & _ & Hr).
    rewrite Ht, <- app_assoc. cbn [app readArgumentsLoop].
    rewrite Hr, IH, <- app_assoc. reflexivity.
Qed.

Lemma tags_no_NUL (args : list Argument) :
  Forall canonical args -> ~ In x00 (flat_map tagOf args).
Proof.
  induction 1 as [|a args Ha _ IH]; cbn [flat_map]; [tauto|].
  destruct (readArgument_payload a [] Ha) as (t & _ & Hn & _).
  intro H. apply in_app_or in H. tauto.
Qed.

(** C1, as stated, fails: a message whose argument is the time tag one
    nanosecond after the OSC epoch is marshalled with the 64-bit value 1
    for it, and unmarshalling gives the immediate time tag. *)
Lemma Message_roundtrip_counterexample :
  let m := mkMessage (str "/") [ArgTimeTag (NewTimeTag osc_epoch_plus_1ns)] in
  let data := str "/" ++ [x00; x00; x00] ++ str ",t" ++ [x00; x00]
              ++ immediate_bytes in
  Message_MarshalBinary m = Ok data
  /\ Message_UnmarshalBinary NewEmptyMessage data
     = (mkMessage (str "/") [ArgTimeTag NewImmediateTimeTag], Ok tt)
  /\ ~ Message_Equals (mkMessage (str "/") [ArgTimeTag NewImmediateTimeTag]) m.
Proof.
  cbv zeta. repeat split. intros [_ H]. discriminate.
Qed.

(** C1, amended. A message whose address has no NUL and whose arguments
    are all canonical (nil, integers, floats by bit pattern, strings
    without NUL, non-empty byte slices, the boolean [true], canonical time
    tags) is returned by [UnmarshalBinary] from the bytes that
    [MarshalBinary] writes, whatever the receiver held before: same
    address, same arguments in order. A message without arguments is the
    one that [NewMessage] builds, with a nil [Arguments]. *)
Theorem Message_roundtrip (m msg : Message) :
  ~ In x00 (Address m) -> Forall canonical (Arguments m) ->
  exists data,
    Message_MarshalBinary m = Ok data
    /\ Message_UnmarshalBinary msg data = (m, Ok tt).
Proof.
  intros Ha Hargs. destruct m as [address args]. cbn [Address Arguments] in *.
  unfold Message_MarshalBinary, Message_TypeTagString. cbn [Address Arguments].
  rewrite typeTagStringLoop_canonical by assumption. cbn [bind].
  rewrite marshalArgumentsLoop_canonical by assumption.
  eexists. split; [reflexivity|].
  unfold Message_UnmarshalBinary, Buffer.NewBuffer.
  rewrite <- !app_assoc, decodeString_encodeString by assumption.
  rewrite decodeString_encodeString.
  - unfold readArguments. change (str "," ++ flat_map tagOf args)
      with (","%byte :: flat_map tagOf args).
    cbv iota. rewrite (Byte.byte_dec_lb (x := ","%byte) eq_refl). cbn [negb].
    rewrite <- (app_nil_r (flat_map payloadOf args)).
    now rewrite readArgumentsLoop_canonical.
  - intros [H|H]; [discriminate|]. now apply tags_no_NUL in H.
Qed.

Lemma Message_roundtrip_witness :
  exists data,
    Message_MarshalBinary
      (mkMessage (str "/foo") [ArgInt32 1000; ArgString (str "hello")])
    = Ok data
    /\ Message_UnmarshalBinary NewEmptyMessage data
       = (mkMessage (str "/foo") [ArgInt32 1000; ArgString (str "hello")],
          Ok tt).
Proof.
  apply (Message_roundtrip
           (mkMessage (str "/foo") [ArgInt32 1000; ArgString (str "hello")])
           NewEmptyMessage).
  - cbn. intuition discriminate.
  - repeat constructor; cbn; try lia. intuition discriminate.
Defined.

(** * Further properties of the codec *)

(** ** Padding and strings *)

Lemma len_app {A} (a b : list A) : len (a ++ b) = len a + len b.
Proof. unfold len. rewrite length_app. lia. Qed.

Lemma len_repeat {A} (x : A) (n : nat) : len (repeat x n) = Z.of_nat n.
Proof. unfold len. now rewrite repeat_length. Qed.

Lemma len_nonneg {A} (l : list A) : 0 <= len l.
Proof. unfold len. lia. Qed.

Lemma padding_lt_4 (n : Z) : (padding n < 4)%nat.
Proof.
  pose proof (padding_spec n) as H.
  pose proof (Z.mod_pos_bound (- n) 4 ltac:(lia)). lia.
Qed.

Lemma padding_aligned (n : Z) : n mod 4 = 0 -> padding n = 0%nat.
Proof.
  intro H. pose proof (padding_spec n) as Hp.
  assert ((- n) mod 4 = 0) by euclid. lia.
Qed.

Lemma len_padTo32Bits (data : list byte) :
  len (padTo32Bits data) = len data + (- len data) mod 4.
Proof.
  rewrite padTo32Bits_eq, len_app, len_repeat, padding_spec. reflexivity.
Qed.

Lemma len_padTo32Bits_mod (data : list byte) : len (padTo32Bits data) mod 4 = 0.
Proof. rewrite len_padTo32Bits. euclid. Qed.

(** X1. [padTo32Bits] appends fewer than four zero bytes and nothing else;
    the result has a length that is a multiple of 4; data of such a length
    is returned as it is, so padding twice is padding once. *)
Theorem padTo32Bits_spec (data : list byte) :
  (exists pad, padTo32Bits data = data ++ repeat x00 pad /\ (pad < 4)%nat)
  /\ len (padTo32Bits data) mod 4 = 0
  /\ (len data mod 4 = 0 <-> padTo32Bits data = data)
  /\ padTo32Bits (padTo32Bits data) = padTo32Bits data.
Proof.
  assert (Hfix : forall d, len d mod 4 = 0 -> padTo32Bits d = d).
  { intros d Hd. rewrite padTo32Bits_eq, padding_aligned by assumption.
    apply app_nil_r. }
  repeat split.
  - exists (padding (len data)). split; [apply padTo32Bits_eq | apply padding_lt_4].
  - apply len_padTo32Bits_mod.
  - apply Hfix.
  - intro H. rewrite <- H. apply len_padTo32Bits_mod.
  - apply Hfix, len_padTo32Bits_mod.
Qed.

Lemma len_encodeString (s : gostring) :
  len (encodeString s) = len s + 1 + (- (len s + 1)) mod 4.
Proof.
  unfold encodeString. rewrite len_padTo32Bits, len_app. reflexivity.
Qed.

(** X2. A string without NUL is read back by [decodeString] from the
    bytes that [encodeString] writes, and the reader stops right after
    them. The encoding holds the string, its terminator and up to three
    more bytes, and its length is a multiple of 4. *)
Theorem encodeString_roundtrip (s : gostring) (rest : list byte) :
  ~ In x00 s ->
  decodeString (encodeString s ++ rest) = Ok (s, rest)
  /\ len (encodeString s) mod 4 = 0
  /\ len s + 1 <= len (encodeString s) <= len s + 4.
Proof.
  intro Hs. split; [now apply decodeString_encodeString|].
  rewrite len_encodeString.
  pose proof (len_nonneg s). split; euclid.
Qed.

Lemma encodeString_roundtrip_witness :
  decodeString (encodeString (str "/foo") ++ [x2c]) = Ok (str "/foo", [x2c]).
Proof.
  apply (encodeString_roundtrip (str "/foo") [x2c]).
  cbn. intuition discriminate.
Defined.

(** X3. The only error that [decodeString] returns is [io.EOF], and it
    returns it exactly when the buffer holds no NUL: the error built for a
    malformed padding is never the outcome. *)
Theorem decodeString_error_iff (buf : Buffer.t) (e : error) :
  decodeString buf = Err e <-> (e = EOF /\ ~ In x00 buf).
Proof.
  destruct (split_first x00 buf) as [Hn | (s & rest & -> & Hs)].
  - rewrite decodeString_not_found by assumption. split.
    + intro H. injection H as <-. auto.
    + intros [-> _]. reflexivity.
  - rewrite decodeString_found by assumption. split.
    + destruct (popPadding_cases (padding (len s + 1)) rest)
        as [(b' & -> & _) | ->]; discriminate.
    + intros [_ H]. exfalso. apply H. apply in_or_app. right. now left.
Qed.

Lemma decodeString_error_iff_witness :
  decodeString (str "/foo") = Err EOF.
Proof.
  apply (decodeString_error_iff (str "/foo") EOF). split; [reflexivity|].
  cbn. intuition discriminate.
Defined.

Lemma popPadding_ok_inv (k : nat) :
  forall buf buf',
    popPadding k buf = Ok (tt, buf') ->
    exists pad, buf = pad ++ buf' /\ Forall (eq x00) pad
                /\ (length pad <= k)%nat
                /\ ((length pad < k)%nat -> buf' = []).
Proof.
  induction k as [|k IH]; intros buf buf' H.
  - cbn in H. injection H as <-. exists []. repeat split; auto. lia.
  - cbn [popPadding] in H. destruct buf as [|b buf]; cbn in H.
    + apply IH in H. destruct H as (pad & Hb & _).
      symmetry in Hb. apply app_eq_nil in Hb. destruct Hb as [_ ->].
      exists []. repeat split; auto. cbn. lia.
    + destruct (Byte.eqb b x00) eqn:E; cbn in H; [|discriminate].
      apply eqb_byte_true in E. subst b.
      apply IH in H. destruct H as (pad & -> & Hz & Hl & Hs).
      exists (x00 :: pad). repeat split; auto; cbn [length]; try lia.
      intro. apply Hs. lia.
Qed.

(** X4. What a successful [decodeString] has read: the string returned,
    which holds no NUL, its terminator, and zero bytes up to the next
    multiple of 4; fewer of them only when the buffer ends there. *)
Theorem decodeString_ok_shape (buf buf' : Buffer.t) (s : gostring) :
  decodeString buf = Ok (s, buf') ->
  ~ In x00 s
  /\ exists pad,
      buf = s ++ x00 :: pad ++ buf'
      /\ Forall (eq x00) pad
      /\ (length pad <= padding (len s + 1))%nat
      /\ ((length pad < padding (len s + 1))%nat -> buf' = []).
Proof.
  intro H.
  destruct (split_first x00 buf) as [Hn | (s0 & rest & -> & Hs)].
  - rewrite decodeString_not_found in H by assumption. discriminate.
  - rewrite decodeString_found in H by assumption.
    destruct (popPadding (padding (len s0 + 1)) rest) as [[[] b']| |] eqn:E;
      try discriminate.
    cbn [bind] in H. injection H as <- <-. split; [assumption|].
    apply popPadding_ok_inv in E. destruct E as (pad & -> & Hz & Hl & Hend).
    exists pad. auto.
Qed.

Lemma decodeString_ok_shape_witness :
  ~ In x00 (str "ab")
  /\ exists pad,
      str "ab" ++ [x00; x00; x2c] = str "ab" ++ x00 :: pad ++ [x2c]
      /\ Forall (eq x00) pad
      /\ (length pad <= padding (len (str "ab") + 1))%nat
      /\ ((length pad < padding (len (str "ab") + 1))%nat -> [x2c] = []).
Proof.
  apply (decodeString_ok_shape (str "ab" ++ [x00; x00; x2c]) [x2c] (str "ab")).
  reflexivity.
Defined.

(** ** Byte slices *)

Lemma padding_and_not (n : Z) :
  0 <= n -> and_not (n + 3) 3 = n + Z.of_nat (padding n).
Proof.
  intro Hn. rewrite padding_spec, and_not_3. euclid.
Qed.

Lemma len_encodeByteSlice_mod (b : list byte) : len (encodeByteSlice b) mod 4 = 0.
Proof. unfold encodeByteSlice. apply len_padTo32Bits_mod. Qed.

Lemma decodeByteSlice_any_padding (b pad rest : list byte) :
  b <> [] -> len b + 3 < 2147483648 -> length pad = padding (len b) ->
  decodeByteSlice (binary.Write32 (len b) ++ b ++ pad ++ rest) = Ok (b, rest).
Proof.
  intros Hb Hl Hp. unfold decodeByteSlice, binary.ReadInt32, binary.Write32.
  assert (Hpos : 0 < len b).
  { unfold len. destruct b; [contradiction | cbn [length]; lia]. }
  rewrite ReadFull_be_bytes. cbn [bind].
  rewrite be_uint_be_bytes. change (256 ^ Z.of_nat 4) with 4294967296.
  rewrite (Z.mod_small (len b)) by lia.
  rewrite (wrap_s_32_small (len b)), (wrap_s_32_small (len b + 3)) by lia.
  assert ((len b =? 0) = false) as -> by (apply Z.eqb_neq; lia).
  rewrite padding_and_not by lia. rewrite <- Hp.
  replace (len b + Z.of_nat (length pad)) with (Z.of_nat (length (b ++ pad)))
    by (unfold len; rewrite length_app; lia).
  assert ((Z.of_nat (length (b ++ pad)) <? 0) = false) as ->
      by (apply Z.ltb_ge; lia).
  rewrite Nat2Z.id, app_assoc, Read_exact. unfold len at 1.
  rewrite Z.eqb_refl. cbn [negb].
  assert ((len b <? 0) = false) as -> by (apply Z.ltb_ge; lia).
  assert ((Z.of_nat (length (b ++ pad)) <? len b) = false) as ->.
  { apply Z.ltb_ge. unfold len. rewrite length_app. lia. }
  cbn [orb]. unfold len. rewrite Nat2Z.id, firstn_app_len. reflexivity.
Qed.

(** X5. A byte slice whose rounded length fits an [int32] is read back by
    [decodeByteSlice] from the bytes that [encodeByteSlice] writes, the
    reader stopping right after them; the encoding has a length that is a
    multiple of 4. The bytes that pad a non-empty slice are skipped
    without being looked at: any bytes in their place are accepted. *)
Theorem encodeByteSlice_roundtrip (b : list byte) :
  len b + 3 < 2147483648 ->
  (forall rest, decodeByteSlice (encodeByteSlice b ++ rest) = Ok (b, rest))
  /\ len (encodeByteSlice b) mod 4 = 0
  /\ (b <> [] ->
      forall pad rest,
        length pad = padding (len b) ->
        decodeByteSlice (binary.Write32 (len b) ++ b ++ pad ++ rest)
        = Ok (b, rest)).
Proof.
  intro Hl. split; [|split].
  - intro rest. destruct b as [|x b]; [reflexivity|].
    apply decodeByteSlice_encodeByteSlice; [discriminate | assumption].
  - apply len_encodeByteSlice_mod.
  - intros Hb pad rest Hp. now apply decodeByteSlice_any_padding.
Qed.

Lemma encodeByteSlice_roundtrip_witness :
  decodeByteSlice (encodeByteSlice (str "abcde") ++ [x2f])
  = Ok (str "abcde", [x2f]).
Proof.
  apply (proj1 (encodeByteSlice_roundtrip (str "abcde") ltac:(cbn; lia))).
Defined.

(** X6. A byte slice cut short is rejected: when the length field
    announces a positive length and fewer bytes than that length rounded
    up to a multiple of 4 remain, [decodeByteSlice] returns an error,
    [io.EOF] when nothing remains. *)
Theorem decodeByteSlice_truncated (cnt tail : list byte) :
  length cnt = 4%nat ->
  0 < be_uint cnt -> be_uint cnt + 3 < 2147483648 ->
  len tail < and_not (be_uint cnt + 3) 3 ->
  decodeByteSlice (cnt ++ tail)
  = Err (match tail with
         | [] => EOF
         | _ :: _ => Errorf "Didn't read expected number of bytes"
         end).
Proof.
  intros Hc Hpos Hmax Hshort.
  unfold decodeByteSlice, binary.ReadInt32.
  rewrite ReadFull_app by assumption. cbn [bind].
  rewrite (wrap_s_32_small (be_uint cnt)),
    (wrap_s_32_small (be_uint cnt + 3)) by lia.
  assert ((be_uint cnt =? 0) = false) as -> by (apply Z.eqb_neq; lia).
  pose proof (len_nonneg tail) as Ht.
  assert ((and_not (be_uint cnt + 3) 3 <? 0) = false) as ->
      by (apply Z.ltb_ge; lia).
  unfold Buffer.Read. destruct tail as [|x tail].
  - assert (Nat.eqb (Z.to_nat (and_not (be_uint cnt + 3) 3)) 0 = false) as ->.
    { apply Nat.eqb_neq. unfold len in Hshort. cbn [length] in Hshort. lia. }
    reflexivity.
  - assert ((Z.of_nat (Nat.min (Z.to_nat (and_not (be_uint cnt + 3) 3))
                               (length (x :: tail)))
             =? and_not (be_uint cnt + 3) 3) = false) as ->.
    { apply Z.eqb_neq. unfold len in Hshort. lia. }
    reflexivity.
Qed.

Lemma decodeByteSlice_truncated_witness :
  decodeByteSlice ([x00; x00; x00; x05] ++ str "abc")
  = Err (Errorf "Didn't read expected number of bytes").
Proof.
  apply (decodeByteSlice_truncated [x00; x00; x00; x05] (str "abc"));
    vm_compute; reflexivity.
Defined.

(** ** Time tags *)

Lemma be_bytes_shift (k : nat) (a z : Z) :
  be_bytes k (a * 256 ^ Z.of_nat k + z) = be_bytes k z.
Proof.
  revert a. induction k as [|k IH]; intro a; [reflexivity|].
  cbn [be_bytes]. rewrite Nat2Z.inj_succ, Z.pow_succ_r by lia.
  assert (Hp : 0 < 256 ^ Z.of_nat k) by (apply Z.pow_pos_nonneg; lia).
  f_equal.
  - replace (a * (256 * 256 ^ Z.of_nat k) + z)
      with (z + (a * 256) * 256 ^ Z.of_nat k) by ring.
    rewrite Z.div_add by lia. unfold byte_of_Z.
    now rewrite Z.mod_add by lia.
  - replace (a * (256 * 256 ^ Z.of_nat k) + z)
      with ((a * 256) * 256 ^ Z.of_nat k + z) by ring.
    apply IH.
Qed.

Lemma be_bytes_be_uint (bs : list byte) :
  be_bytes (length bs) (be_uint bs) = bs.
Proof.
  induction bs as [|b bs IH]; [reflexivity|].
  cbn [length be_bytes]. unfold be_uint at 1 2. cbn [be_acc].
  rewrite be_acc_split. unfold len.
  assert (Hp : 0 < 256 ^ Z.of_nat (length bs)) by (apply Z.pow_pos_nonneg; lia).
  pose proof (be_uint_range bs) as Hr. unfold len in Hr.
  f_equal.
  - replace ((0 * 256 + byte_to_Z b) * 256 ^ Z.of_nat (length bs) + be_uint bs)
      with (be_uint bs + byte_to_Z b * 256 ^ Z.of_nat (length bs)) by ring.
    rewrite Z.div_add, Z.div_small by lia. apply byte_of_to_Z.
  - rewrite be_bytes_shift. apply IH.
Qed.

Lemma timeTagOfUint64_normalised (v : Z) :
  0 <= v < 18446744073709551616 ->
  timeTagOfUint64 v = NewImmediateTimeTag
  \/ (Immediate (timeTagOfUint64 v) = false
      /\ time.loc (tt_time (timeTagOfUint64 v)) = time.UTC
      /\ 0 <= time.nsec (tt_time (timeTagOfUint64 v)) < 1000000000
      /\ 0 <= time.sec (tt_time (timeTagOfUint64 v)) + unixOSCEpochOffset
         < 4294967296 + 4).
Proof.
  intro Hv. unfold timeTagOfUint64, timeTagImmediate.
  destruct (v =? 1); [left; reflexivity | right].
  cbv zeta. rewrite shiftr_32, land_mask_32.
  assert (Hs : 0 <= v / 4294967296 < 4294967296) by euclid.
  assert (Hn : 0 <= v mod 4294967296 < 4294967296) by euclid.
  set (s := v / 4294967296) in *. set (n := v mod 4294967296) in *.
  unfold unixOSCEpochOffset.
  rewrite (wrap_s_64_small s), (wrap_s_64_small (s - 2208988800)),
    (wrap_s_64_small n) by lia.
  unfold time.Unix, time.In, NewTimeTag.
  assert ((n <? 0) = false) as -> by (apply Z.ltb_ge; lia).
  cbn [orb]. destruct (1000000000 <=? n) eqn:E.
  - apply Z.leb_le in E. rewrite Z.quot_div_nonneg by lia.
    assert (Hq : 1 <= n / 1000000000 <= 4) by euclid.
    set (q := n / 1000000000) in *.
    assert (Hr : 0 <= n - q * 1000000000 < 1000000000) by (unfold q; euclid).
    rewrite (wrap_s_64_small (s - 2208988800 + q)) by lia.
    assert ((n - q * 1000000000 <? 0) = false) as -> by (apply Z.ltb_ge; lia).
    cbn [Immediate tt_time time.sec time.nsec time.loc]. repeat split; lia.
  - apply Z.leb_gt in E.
    cbn [Immediate tt_time time.sec time.nsec time.loc]. repeat split; lia.
Qed.

(** X7. [decodeTimeTag] reads exactly 8 bytes, and the time tag it returns
    is the immediate one or a time in UTC whose nanoseconds lie within
    the second: a fraction field of 10^9 or more is carried into the
    seconds. *)
Theorem decodeTimeTag_normalised (buf buf' : Buffer.t) (timeTag : TimeTag) :
  decodeTimeTag buf = Ok (timeTag, buf') ->
  length buf = (8 + length buf')%nat
  /\ (timeTag = NewImmediateTimeTag
      \/ (Immediate timeTag = false
          /\ time.loc (tt_time timeTag) = time.UTC
          /\ 0 <= time.nsec (tt_time timeTag) < 1000000000
          /\ 0 <= time.sec (tt_time timeTag) + unixOSCEpochOffset
             < 4294967296 + 4)).
Proof.
  intro H. apply decodeTimeTag_inv in H.
  destruct H as (ttb & -> & Hl & Ht).
  rewrite length_app, Hl. split; [reflexivity|].
  rewrite decodeTimeTag_8 in Ht by assumption.
  remember (timeTagOfUint64 (be_uint ttb)) as t0 eqn:Et.
  injection Ht as Ht. subst timeTag. rewrite Et.
  apply timeTagOfUint64_normalised.
  pose proof (be_uint_range ttb) as Hr. unfold len in Hr. rewrite Hl in Hr.
  change (256 ^ Z.of_nat 8) with 18446744073709551616 in Hr. exact Hr.
Qed.

Lemma decodeTimeTag_normalised_witness :
  length [x00; x00; x00; x00; xff; xff; xff; xff; x2f] = (8 + length [x2f])%nat
  /\ (NewTimeTag (time.mkTime (-2208988796) 294967295 time.UTC)
      = NewImmediateTimeTag
      \/ (false = false /\ time.UTC = time.UTC
          /\ 0 <= 294967295 < 1000000000
          /\ 0 <= -2208988796 + unixOSCEpochOffset < 4294967296 + 4)).
Proof.
  apply (decodeTimeTag_normalised
           [x00; x00; x00; x00; xff; xff; xff; xff; x2f] [x2f]
           (NewTimeTag (time.mkTime (-2208988796) 294967295 time.UTC))).
  reflexivity.
Defined.

(** X8. Eight bytes whose low 32-bit word is below 10^9 are written back
    unchanged by [encodeTimeTag] from the time tag that [decodeTimeTag]
    reads from them. *)
Theorem encodeTimeTag_decodeTimeTag (bs : list byte) :
  length bs = 8%nat ->
  be_uint bs mod 4294967296 < 1000000000 ->
  exists timeTag,
    decodeTimeTag bs = Ok (timeTag, []) /\ encodeTimeTag timeTag = bs.
Proof.
  intros Hl Hfrac. exists (timeTagOfUint64 (be_uint bs)).
  split; [now apply decodeTimeTag_8|].
  pose proof (be_uint_range bs) as Hr. unfold len in Hr. rewrite Hl in Hr.
  change (256 ^ Z.of_nat 8) with 18446744073709551616 in Hr.
  set (v := be_uint bs) in *.
  assert (Hbs : binary.Write64 v = bs).
  { unfold binary.Write64, v. rewrite <- Hl. apply be_bytes_be_uint. }
  destruct (Z.eq_dec v 1) as [E|E].
  - rewrite E in *. exact Hbs.
  - assert (Hs : 0 <= v / 4294967296 < 4294967296) by euclid.
    assert (Hn : 0 <= v mod 4294967296) by euclid.
    assert (Hv : v = (v / 4294967296) * 4294967296 + v mod 4294967296) by euclid.
    rewrite Hv at 1.
    rewrite timeTagOfUint64_value; try lia.
    rewrite encodeTimeTag_value; cbn [time.sec time.nsec]; try lia.
    transitivity (binary.Write64 v); [f_equal; lia | exact Hbs].
Qed.

Lemma encodeTimeTag_decodeTimeTag_witness :
  exists timeTag,
    decodeTimeTag [xdd; xf3; xf8; x80; x1d; xcd; x65; x00] = Ok (timeTag, [])
    /\ encodeTimeTag timeTag = [xdd; xf3; xf8; x80; x1d; xcd; x65; x00].
Proof.
  apply (encodeTimeTag_decodeTimeTag [xdd; xf3; xf8; x80; x1d; xcd; x65; x00]).
  - reflexivity.
  - vm_compute. reflexivity.
Defined.

(** ** Arguments and messages *)

Lemma len_be_bytes (k : nat) (v : Z) : len (be_bytes k v) = Z.of_nat k.
Proof. unfold len. now rewrite length_be_bytes. Qed.

Lemma supported_payload (a : Argument) :
  supported a = true ->
  exists t data,
    typeTag a = Ok [t] /\ tagOf a = [t] /\ In t (str "NifsbTFhdt")
    /\ encodeArgument a = Ok data /\ payloadOf a = data
    /\ len data mod 4 = 0.
Proof.
  assert (H4 : forall v, len (binary.Write32 v) mod 4 = 0).
  { intro v. unfold binary.Write32. now rewrite len_be_bytes. }
  assert (H8 : forall v, len (binary.Write64 v) mod 4 = 0).
  { intro v. unfold binary.Write64. now rewrite len_be_bytes. }
  assert (Ht : forall t, len (encodeTimeTag t) mod 4 = 0).
  { intro t. unfold len. now rewrite length_encodeTimeTag. }
  assert (Hs : forall s, len (encodeString s) mod 4 = 0).
  { intro s. unfold encodeString. apply len_padTo32Bits_mod. }
  destruct a as [|v|bits|s|b|b|v|bits|timeTag|]; intro Hsup;
    try discriminate; unfold tagOf, payloadOf;
    cbn [typeTag encodeArgument]; try destruct b;
    eexists _, _;
    (split; [reflexivity|]); (split; [reflexivity|]);
    (split; [cbn; tauto|]); (split; [reflexivity|]); (split; [reflexivity|]);
    auto using len_encodeByteSlice_mod.
Qed.

Lemma typeTagStringLoop_supported (args : list Argument) :
  forallb supported args = true ->
  forall acc,
    typeTagStringLoop args acc = Ok (acc ++ flat_map tagOf args)
    /\ length (flat_map tagOf args) = length args.
Proof.
  induction args as [|a args IH]; intros H acc; cbn [typeTagStringLoop flat_map].
  - now rewrite app_nil_r.
  - cbn [forallb] in H. apply andb_true_iff in H. destruct H as [Ha Hargs].
    destruct (supported_payload a Ha) as (t & data & Ht & Htag & _).
    rewrite Ht, Htag. cbn [bind].
    destruct (IH Hargs (acc ++ [t])) as [-> Hl].
    rewrite <- app_assoc. cbn [app length]. auto.
Qed.

Lemma marshalArgumentsLoop_supported (args : list Argument) :
  forallb supported args = true ->
  forall buf,
    marshalArgumentsLoop args buf = Ok (buf ++ flat_map payloadOf args)
    /\ len (flat_map payloadOf args) mod 4 = 0.
Proof.
  induction args as [|a args IH]; intros H buf;
    cbn [marshalArgumentsLoop flat_map].
  - now rewrite app_nil_r.
  - cbn [forallb] in H. apply andb_true_iff in H. destruct H as [Ha Hargs].
    destruct (supported_payload a Ha) as (t & data & _ & _ & _ & He & Hp & Hd).
    rewrite He, Hp. cbn [bind].
    destruct (IH Hargs (buf ++ data)) as [-> Hl].
    rewrite <- app_assoc, len_app. split; [reflexivity | euclid].
Qed.

Lemma typeTagStringLoop_unsupported (args : list Argument) :
  In ArgOther args ->
  forall acc, typeTagStringLoop args acc = Err (Errorf "Unsupported type").
Proof.
  induction args as [|a args IH]; intros H acc; [contradiction|].
  cbn [typeTagStringLoop].
  destruct (supported a) eqn:Ha.
  - destruct (supported_payload a Ha) as (t & data & -> & _).
    cbn [bind]. apply IH. destruct H as [->|H]; [discriminate | assumption].
  - destruct a; try discriminate. reflexivity.
Qed.

Lemma forallb_supported (args : list Argument) :
  ~ In ArgOther args -> forallb supported args = true.
Proof.
  induction args as [|a args IH]; intro H; [reflexivity|].
  cbn [forallb]. rewrite IH by (intro; apply H; now right).
  destruct a; try reflexivity. exfalso. apply H. now left.
Qed.

Lemma Message_MarshalBinary_supported (m : Message) :
  forallb supported (Arguments m) = true ->
  Message_TypeTagString m = Ok (","%byte :: flat_map tagOf (Arguments m))
  /\ length (flat_map tagOf (Arguments m)) = length (Arguments m)
  /\ Message_MarshalBinary m
     = Ok (encodeString (Address m)
           ++ encodeString (","%byte :: flat_map tagOf (Arguments m))
           ++ flat_map payloadOf (Arguments m))
  /\ len (flat_map payloadOf (Arguments m)) mod 4 = 0.
Proof.
  intro H. unfold Message_MarshalBinary, Message_TypeTagString.
  destruct (typeTagStringLoop_supported _ H (str ",")) as [-> Hl].
  cbn [bind].
  destruct (marshalArgumentsLoop_supported _ H
              (encodeString (Address m)
               ++ encodeString (str "," ++ flat_map tagOf (Arguments m))))
    as [-> Hp].
  rewrite <- app_assoc. auto.
Qed.

(** X9. [Message.MarshalBinary] fails exactly on the messages that hold
    an argument of an unsupported type, and then with the error of
    [typeTag]; on every other message it writes the encoded address, the
    encoded type tag string (a comma and one tag per argument) and the
    payloads, in a number of bytes that is a multiple of 4. *)
Theorem Message_MarshalBinary_outcome (m : Message) :
  (In ArgOther (Arguments m) ->
   Message_MarshalBinary m = Err (Errorf "Unsupported type"))
  /\ (~ In ArgOther (Arguments m) ->
      exists tags data,
        Message_TypeTagString m = Ok (","%byte :: tags)
        /\ length tags = length (Arguments m)
        /\ Message_MarshalBinary m = Ok data
        /\ data = encodeString (Address m) ++ encodeString (","%byte :: tags)
                  ++ flat_map payloadOf (Arguments m)
        /\ len data mod 4 = 0).
Proof.
  split.
  - intro H. unfold Message_MarshalBinary, Message_TypeTagString.
    now rewrite typeTagStringLoop_unsupported.
  - intro H. apply forallb_supported in H.
    destruct (Message_MarshalBinary_supported m H) as (Ht & Hl & Hm & Hp).
    eexists _, _. repeat split; try eassumption.
    rewrite !len_app.
    pose proof (len_padTo32Bits_mod (Address m ++ [x00])) as H1.
    pose proof (len_padTo32Bits_mod
                  ((","%byte :: flat_map tagOf (Arguments m)) ++ [x00])) as H2.
    unfold encodeString. euclid.
Qed.

Lemma Message_MarshalBinary_outcome_witness :
  Message_MarshalBinary (mkMessage (str "/x") [ArgInt32 1; ArgOther])
  = Err (Errorf "Unsupported type").
Proof.
  apply (proj1 (Message_MarshalBinary_outcome
                  (mkMessage (str "/x") [ArgInt32 1; ArgOther]))).
  cbn. auto.
Defined.

Lemma addArguments_spec (args : list Argument) :
  forall msg,
    Address (addArguments msg args) = Address msg
    /\ Arguments (addArguments msg args)
       = Arguments msg ++ filter supported args.
Proof.
  unfold addArguments.
  induction args as [|a args IH]; intro msg; cbn [fold_left filter].
  - now rewrite app_nil_r.
  - destruct (IH (fst (Message_AddArgument msg a))) as [-> ->].
    unfold Message_AddArgument.
    destruct a; cbn [typeTag supported fst Address Arguments];
      try (destruct b); cbn [fst Address Arguments];
      rewrite <- ?app_assoc; auto.
Qed.

(** X10. A message built from [NewMessage] by any run of [AddArgument]
    calls holds the arguments of a supported type in the order of the
    calls, the other calls having left it unchanged; [MarshalBinary]
    never fails on it and writes a number of bytes that is a multiple of
    4. *)
Theorem addArguments_marshal (address : gostring) (args : list Argument) :
  let m := addArguments (NewMessage address) args in
  Address m = address
  /\ Arguments m = filter supported args
  /\ exists data, Message_MarshalBinary m = Ok data /\ len data mod 4 = 0.
Proof.
  cbv zeta.
  destruct (addArguments_spec args (NewMessage address)) as [Ha Hargs].
  cbn [NewMessage Address Arguments app] in *.
  repeat split; try assumption.
  assert (Hs : ~ In ArgOther (Arguments (addArguments (NewMessage address) args))).
  { rewrite Hargs. intro H. apply filter_In in H. destruct H as [_ H].
    discriminate. }
  apply forallb_supported in Hs.
  destruct (Message_MarshalBinary_supported _ Hs) as (_ & _ & Hm & Hp).
  eexists. split; [exact Hm|].
  rewrite !len_app.
  pose proof (len_padTo32Bits_mod
                (Address (addArguments (NewMessage address) args) ++ [x00]))
    as H1.
  pose proof (len_padTo32Bits_mod
                ((","%byte
                  :: flat_map tagOf
                       (Arguments (addArguments (NewMessage address) args)))
                 ++ [x00])) as H2.
  unfold encodeString. euclid.
Qed.

(** X11. Whatever goes wrong while the arguments are read, [readArguments]
    reports one of two errors: the error of the reader that failed
    ([io.EOF], a short blob) is replaced by "Found malformed argument". *)
Theorem readArguments_errors (typeTagString : gostring) (buf : Buffer.t)
        (e : error) :
  readArguments typeTagString buf = Err e ->
  e = Errorf "Malformed type tag string"
  \/ e = Errorf "Found malformed argument".
Proof.
  unfold readArguments. destruct typeTagString as [|first rest];
    [discriminate|].
  destruct (negb (Byte.eqb first ",")).
  - intro H. injection H as <-. now left.
  - intro H. right. eapply readArgumentsLoop_errors. eassumption.
Qed.

Lemma readArguments_errors_witness :
  Errorf "Found malformed argument" = Errorf "Malformed type tag string"
  \/ Errorf "Found malformed argument" = Errorf "Found malformed argument".
Proof.
  apply (readArguments_errors (str ",i") [x00; x00]
           (Errorf "Found malformed argument")).
  reflexivity.
Defined.

Lemma readArgument_tag (t : byte) (buf buf1 : Buffer.t) (a : Argument) :
  readArgument t buf = Ok (a, buf1) -> typeTag a = Ok [retag t].
Proof.
  destruct t; cbn [readArgument]; try discriminate;
    try (intro H; injection H as <- _; reflexivity).
  - destruct (decodeByteSlice buf) as [[v b]| |]; try discriminate.
    cbn [bind]. intro H. injection H as <- _. reflexivity.
  - destruct (binary.ReadUint64 buf) as [[v b]| |]; try discriminate.
    cbn [bind]. intro H. injection H as <- _. reflexivity.
  - destruct (binary.ReadUint32 buf) as [[v b]| |]; try discriminate.
    cbn [bind]. intro H. injection H as <- _. reflexivity.
  - destruct (binary.ReadInt64 buf) as [[v b]| |]; try discriminate.
    cbn [bind]. intro H. injection H as <- _. reflexivity.
  - destruct (binary.ReadInt32 buf) as [[v b]| |]; try discriminate.
    cbn [bind]. intro H. injection H as <- _. reflexivity.
  - destruct (decodeString buf) as [[v b]| |]; try discriminate.
    cbn [bind]. intro H. injection H as <- _. reflexivity.
  - destruct (decodeTimeTag buf) as [[v b]| |]; try discriminate.
    cbn [bind]. intro H. injection H as <- _. reflexivity.
Qed.

Lemma readArgumentsLoop_tags (tags : gostring) :
  forall buf acc args buf',
    readArgumentsLoop tags buf acc = Ok (args, buf') ->
    exists vals,
      args = acc ++ vals
      /\ forall s, typeTagStringLoop vals s = Ok (s ++ map retag tags).
Proof.
  induction tags as [|t tags IH]; intros buf acc args buf' H.
  - cbn in H. injection H as <- <-. exists []. rewrite app_nil_r.
    split; [reflexivity|]. intro s. cbn. now rewrite app_nil_r.
  - cbn [readArgumentsLoop] in H.
    destruct (readArgument t buf) as [[val buf1]|e|p] eqn:E; try discriminate.
    apply readArgument_tag in E.
    apply IH in H. destruct H as (vals & -> & Hv).
    exists (val :: vals). rewrite <- app_assoc. split; [reflexivity|].
    intro s. cbn [typeTagStringLoop map]. rewrite E. cbn [bind].
    rewrite Hv, <- app_assoc. reflexivity.
Qed.

(** X12. The type tag string of a decoded message is the one that was
    read, with every 'F' turned into 'T'; so a decoded message is always
    one that [MarshalBinary] accepts. *)
Theorem readArguments_TypeTagString
        (tags : gostring) (buf buf' : Buffer.t) (args : list Argument)
        (address : gostring) :
  readArguments (","%byte :: tags) buf = Ok (args, buf') ->
  Message_TypeTagString (mkMessage address args)
  = Ok (","%byte :: map retag tags)
  /\ ~ In ArgOther args.
Proof.
  cbn [readArguments Byte.eqb negb].
  rewrite (Byte.byte_dec_lb (x := ","%byte) eq_refl). cbn [negb].
  intro H. apply readArgumentsLoop_tags in H.
  destruct H as (vals & -> & Hv). cbn [app].
  unfold Message_TypeTagString. cbn [Arguments]. split; [apply Hv|].
  intro Hin. pose proof (typeTagStringLoop_unsupported vals Hin (str ",")) as E.
  rewrite Hv in E. discriminate.
Qed.

Lemma readArguments_TypeTagString_witness :
  Message_TypeTagString (mkMessage (str "/x") [ArgBool true; ArgBool true])
  = Ok (","%byte :: map retag (str "TF"))
  /\ ~ In ArgOther [ArgBool true; ArgBool true].
Proof.
  apply (readArguments_TypeTagString (str "TF") [] []
           [ArgBool true; ArgBool true] (str "/x")).
  reflexivity.
Defined.

(** ** Packets and bundles *)

Lemma decodePacket_eq (data : list byte) :
  decodePacket data
  = if (len data <=? 0) || negb (len data mod 4 =? 0)
    then Err (Errorf "Packet data is not a multiple of 4 bytes")
    else
      match data with
      | [] => Panic IndexOutOfRange
      | firstChar :: _ =>
          if Byte.eqb firstChar "/"%byte then
            match NewMessageFromData data with
            | (p, Ok _) => Ok (PMessage p)
            | (_, Err e) => Err e
            | (_, Panic pn) => Panic pn
            end
          else if Byte.eqb firstChar "#"%byte then
            match NewBundleFromData data with
            | (p, Ok _) => Ok (PBundle p)
            | (_, Err e) => Err e
            | (_, Panic pn) => Panic pn
            end
          else Err (Errorf "Malformed packet")
      end.
Proof.
  pose proof (decodePacket_unfold data) as U.
  unfold decodePacket_body in U. rewrite NewBundleFromData_unfold in U.
  assert (Hrem : Z.rem (len data) 4 = len data mod 4).
  { apply Z.rem_mod_nonneg; unfold len; lia. }
  rewrite Hrem in U.
  destruct ((len data <=? 0) || negb (len data mod 4 =? 0));
    [congruence|].
  destruct data as [|firstChar rest]; [congruence|].
  destruct (Byte.eqb firstChar "/").
  - destruct (NewMessageFromData (firstChar :: rest)) as [m [u|e|p]];
      congruence.
  - destruct (Byte.eqb firstChar "#"); [|congruence].
    destruct (NewBundleFromData (firstChar :: rest)) as [b [u|e|p]];
      congruence.
Qed.

Lemma Packet_MarshalBinary_bundle (timeTag : TimeTag) (els : list Packet) :
  Packet_MarshalBinary (PBundle (mkBundle timeTag els))
  = marshalElements els (bundleString ++ encodeTimeTag timeTag).
Proof.
  cbn [Packet_MarshalBinary].
  generalize (bundleString ++ encodeTimeTag timeTag) as buf.
  induction els as [|e els IH]; intro buf; [reflexivity|].
  cbn [marshalElements].
  destruct (Packet_MarshalBinary e) as [encoded| |]; cbn [bind];
    [apply IH | reflexivity | reflexivity].
Qed.

(** Induction on packets, the elements of a bundle included. *)
Lemma Packet_nested_ind (P : Packet -> Prop) :
  (forall m, P (PMessage m)) ->
  (forall timeTag els, Forall P els -> P (PBundle (mkBundle timeTag els))) ->
  forall p, P p.
Proof.
  intros Hm Hb.
  fix IH 1. intros [m | [timeTag els]].
  - apply Hm.
  - apply Hb. induction els as [|e els IHels]; constructor.
    + apply IH.
    + apply IHels.
Qed.

Lemma forallb_supported_false (args : list Argument) :
  forallb supported args = false -> In ArgOther args.
Proof.
  induction args as [|a args IH]; [discriminate|].
  cbn [forallb]. intro H. apply andb_false_iff in H. destruct H as [H|H].
  - destruct a; try discriminate. now left.
  - right. auto.
Qed.

Lemma Message_MarshalBinary_ok_inv (m : Message) (data : list byte) :
  Message_MarshalBinary m = Ok data ->
  forallb supported (Arguments m) = true
  /\ data = encodeString (Address m)
            ++ encodeString (","%byte :: flat_map tagOf (Arguments m))
            ++ flat_map payloadOf (Arguments m).
Proof.
  intro H. destruct (forallb supported (Arguments m)) eqn:E.
  - destruct (Message_MarshalBinary_supported m E) as (_ & _ & Hm & _).
    rewrite Hm in H. injection H as <-. auto.
  - apply forallb_supported_false in E.
    unfold Message_MarshalBinary, Message_TypeTagString in H.
    rewrite typeTagStringLoop_unsupported in H by assumption. discriminate.
Qed.

Lemma len_encodeString_bounds (s : gostring) :
  len (encodeString s) mod 4 = 0 /\ 4 <= len (encodeString s).
Proof.
  rewrite len_encodeString. pose proof (len_nonneg s). split; euclid.
Qed.

Lemma Message_MarshalBinary_aligned (m : Message) (data : list byte) :
  Message_MarshalBinary m = Ok data -> len data mod 4 = 0 /\ 8 <= len data.
Proof.
  intro H. apply Message_MarshalBinary_ok_inv in H. destruct H as [Hs ->].
  destruct (Message_MarshalBinary_supported m Hs) as (_ & _ & _ & Hp).
  rewrite !len_app.
  pose proof (len_encodeString_bounds (Address m)) as [H1 H1'].
  pose proof (len_encodeString_bounds
                (","%byte :: flat_map tagOf (Arguments m))) as [H2 H2'].
  pose proof (len_nonneg (flat_map payloadOf (Arguments m))).
  split; euclid.
Qed.

Lemma marshalElements_ok_inv (els : list Packet) :
  Forall (fun e => forall d, Packet_MarshalBinary e = Ok d ->
                             len d mod 4 = 0 /\ 8 <= len d) els ->
  forall buf data,
    marshalElements els buf = Ok data ->
    exists tail, data = buf ++ tail /\ len tail mod 4 = 0.
Proof.
  induction 1 as [|e els He _ IH]; intros buf data H.
  - cbn in H. injection H as <-. exists []. now rewrite app_nil_r.
  - cbn [marshalElements] in H.
    destruct (Packet_MarshalBinary e) as [encoded| |] eqn:E; try discriminate.
    cbn [bind] in H. apply IH in H. destruct H as (tail & -> & Ht).
    destruct (He encoded eq_refl) as [Ha _].
    exists ((binary.Write32 (wrap_u 32 (len encoded)) ++ encoded) ++ tail).
    rewrite <- !app_assoc. split; [reflexivity|].
    rewrite !len_app. unfold binary.Write32. rewrite len_be_bytes. euclid.
Qed.

Lemma Packet_MarshalBinary_aligned (p : Packet) :
  forall data, Packet_MarshalBinary p = Ok data ->
               len data mod 4 = 0 /\ 8 <= len data.
Proof.
  induction p as [m | timeTag els IH] using Packet_nested_ind; intros data H.
  - apply (Message_MarshalBinary_aligned m). exact H.
  - rewrite Packet_MarshalBinary_bundle in H.
    destruct (marshalElements_ok_inv els IH _ _ H) as (tail & -> & Ht).
    rewrite !len_app.
    assert (len (encodeTimeTag timeTag) = 8) as ->
        by (unfold len; now rewrite length_encodeTimeTag).
    assert (len bundleString = 8) as -> by reflexivity.
    pose proof (len_nonneg tail). split; euclid.
Qed.

(** X13. Whatever [MarshalBinary] writes for a packet, a message or a
    bundle with its nested elements, has a length that is a multiple of 4
    and at least 8; the bytes of a bundle start with the identifier
    "#bundle\0" and the 8 bytes of its time tag. *)
Theorem Packet_MarshalBinary_framing (p : Packet) (data : list byte) :
  Packet_MarshalBinary p = Ok data ->
  len data mod 4 = 0 /\ 8 <= len data
  /\ forall bun, p = PBundle bun ->
                 exists body,
                   data = bundleString ++ encodeTimeTag (Bundle_TimeTag bun)
                          ++ body.
Proof.
  intro H. destruct (Packet_MarshalBinary_aligned p data H) as [Ha Hl].
  repeat split; try assumption.
  intros [timeTag els] ->. rewrite Packet_MarshalBinary_bundle in H.
  assert (Hall : Forall (fun e => forall d, Packet_MarshalBinary e = Ok d ->
                                            len d mod 4 = 0 /\ 8 <= len d) els).
  { apply Forall_forall. intros e _. apply Packet_MarshalBinary_aligned. }
  destruct (marshalElements_ok_inv els Hall _ _ H) as (tail & -> & _).
  exists tail. now rewrite <- app_assoc.
Qed.

Lemma Packet_MarshalBinary_framing_witness :
  len empty_bundle_bytes mod 4 = 0 /\ 8 <= len empty_bundle_bytes
  /\ forall bun, PBundle NewBundle = PBundle bun ->
                 exists body,
                   empty_bundle_bytes
                   = bundleString ++ encodeTimeTag (Bundle_TimeTag bun) ++ body.
Proof.
  apply (Packet_MarshalBinary_framing (PBundle NewBundle) empty_bundle_bytes).
  reflexivity.
Defined.

Lemma marshalElements_app (es : list Packet) (p : Packet) :
  forall buf,
    marshalElements (es ++ [p]) buf
    = (data <- marshalElements es buf ;;
       encoded <- Packet_MarshalBinary p ;;
       Ok (data ++ binary.Write32 (wrap_u 32 (len encoded)) ++ encoded)).
Proof.
  induction es as [|e es IH]; intro buf; cbn [app marshalElements].
  - cbn [bind]. destruct (Packet_MarshalBinary p); reflexivity.
  - destruct (Packet_MarshalBinary e) as [encoded| |]; cbn [bind];
      [apply IH | reflexivity | reflexivity].
Qed.

(** X14. Adding a packet to a bundle appends to the bytes of the bundle
    the 32-bit length of the marshalled packet followed by the
    marshalled packet; what was written for the bundle before is
    unchanged. *)
Theorem Bundle_AddPacket_marshal (bun : Bundle) (p : Packet)
        (data encoded : list byte) :
  Bundle_MarshalBinary bun = Ok data ->
  Packet_MarshalBinary p = Ok encoded ->
  Bundle_MarshalBinary (Bundle_AddPacket bun p)
  = Ok (data ++ binary.Write32 (wrap_u 32 (len encoded)) ++ encoded).
Proof.
  destruct bun as [timeTag els]. unfold Bundle_MarshalBinary, Bundle_AddPacket.
  cbn [Bundle_TimeTag Elements].
  rewrite !Packet_MarshalBinary_bundle, marshalElements_app.
  intros -> ->. reflexivity.
Qed.

Lemma Bundle_AddPacket_marshal_witness :
  Bundle_MarshalBinary (Bundle_AddPacket NewBundle (PBundle NewBundle))
  = Ok (empty_bundle_bytes
        ++ binary.Write32 (wrap_u 32 (len empty_bundle_bytes))
        ++ empty_bundle_bytes).
Proof.
  apply (Bundle_AddPacket_marshal NewBundle (PBundle NewBundle)
           empty_bundle_bytes empty_bundle_bytes); reflexivity.
Defined.

Lemma canonical_supported (args : list Argument) :
  Forall canonical args -> forallb supported args = true.
Proof.
  induction 1 as [|a args Ha _ IH]; [reflexivity|].
  cbn [forallb]. rewrite IH. destruct a; try reflexivity. contradiction.
Qed.

Lemma NewMessageFromData_canonical (m : Message) :
  ~ In x00 (Address m) -> Forall canonical (Arguments m) ->
  NewMessageFromData
    (encodeString (Address m)
     ++ encodeString (","%byte :: flat_map tagOf (Arguments m))
     ++ flat_map payloadOf (Arguments m))
  = (m, Ok tt).
Proof.
  intros Ha Hargs. destruct m as [address args]. cbn [Address Arguments] in *.
  unfold NewMessageFromData, Buffer.NewBuffer.
  rewrite decodeString_encodeString by assumption. cbn [Arguments Address].
  rewrite decodeString_encodeString.
  - unfold readArguments.
    rewrite (Byte.byte_dec_lb (x := ","%byte) eq_refl). cbn [negb].
    rewrite <- (app_nil_r (flat_map payloadOf args)).
    now rewrite readArgumentsLoop_canonical.
  - intros [H|H]; [discriminate|]. now apply tags_no_NUL in H.
Qed.

Lemma canonical_bundle (timeTag : TimeTag) (els : list Packet) :
  canonical_packet (PBundle (mkBundle timeTag els))
  <-> canonical_timeTag timeTag
      /\ Forall (fun e => canonical_packet e
                          /\ forall encoded,
                              Packet_MarshalBinary e = Ok encoded ->
                              len encoded < 4294967296) els.
Proof.
  cbn [canonical_packet]. split; intros [Ht H]; (split; [assumption|]).
  - induction els as [|e els IH]; constructor; destruct H as [He Hes]; auto.
  - induction H as [|e els He _ IH]; [exact I | split; assumption].
Qed.

Lemma marshalElements_canonical (els : list Packet) :
  Forall (fun e => canonical_packet e ->
                   exists data, Packet_MarshalBinary e = Ok data
                                /\ decodePacket data = Ok e) els ->
  Forall (fun e => canonical_packet e
                   /\ forall encoded,
                       Packet_MarshalBinary e = Ok encoded ->
                       len encoded < 4294967296) els ->
  forall buf,
    exists body,
      marshalElements els buf = Ok (buf ++ body) /\ bundle_elements body els.
Proof.
  induction 1 as [|e els He _ IH]; intros Hc buf.
  - exists []. rewrite app_nil_r. split; [reflexivity | constructor].
  - inversion Hc as [|? ? [Hce Hsize] Hcs]; subst.
    destruct (He Hce) as (data & Hm & Hd).
    cbn [marshalElements]. rewrite Hm. cbn [bind].
    specialize (Hsize data Hm). pose proof (len_nonneg data).
    assert (Hw : wrap_u 32 (len data) = len data).
    { unfold wrap_u. change (2 ^ 32) with 4294967296. apply Z.mod_small. lia. }
    rewrite Hw.
    destruct (IH Hcs (buf ++ binary.Write32 (len data) ++ data))
      as (body & -> & Hbody).
    exists (binary.Write32 (len data) ++ data ++ body).
    rewrite <- !app_assoc. split; [reflexivity|].
    apply elements_child; auto.
    unfold binary.Write32. rewrite be_uint_be_bytes.
    change (256 ^ Z.of_nat 4) with 4294967296. apply Z.mod_small. lia.
Qed.

Lemma timeTagOfUint64_encodeTimeTag (timeTag : TimeTag) :
  canonical_timeTag timeTag ->
  timeTagOfUint64 (be_uint (encodeTimeTag timeTag)) = timeTag.
Proof.
  intro H. pose proof (decodeTimeTag_encodeTimeTag timeTag H) as E.
  rewrite decodeTimeTag_8 in E by apply length_encodeTimeTag.
  remember (timeTagOfUint64 (be_uint (encodeTimeTag timeTag))) as t0.
  injection E as E. exact E.
Qed.

Lemma decodePacket_first (data tl : list byte) (c : byte) :
  data = c :: tl -> len data mod 4 = 0 ->
  decodePacket data
  = if Byte.eqb c "/"%byte then
      match NewMessageFromData data with
      | (p, Ok _) => Ok (PMessage p)
      | (_, Err e) => Err e
      | (_, Panic pn) => Panic pn
      end
    else if Byte.eqb c "#"%byte then
      match NewBundleFromData data with
      | (p, Ok _) => Ok (PBundle p)
      | (_, Err e) => Err e
      | (_, Panic pn) => Panic pn
      end
    else Err (Errorf "Malformed packet").
Proof.
  intros Hd Hm. rewrite decodePacket_eq, Hm.
  assert ((len data <=? 0) = false) as ->.
  { apply Z.leb_gt. subst data. unfold len. cbn [length]. lia. }
  cbn [Z.eqb negb orb]. rewrite Hd at 1. reflexivity.
Qed.

Lemma decodePacket_MarshalBinary (p : Packet) :
  canonical_packet p ->
  exists data, Packet_MarshalBinary p = Ok data /\ decodePacket data = Ok p.
Proof.
  induction p as [m | timeTag els IH] using Packet_nested_ind.
  - intros ((rest & Haddr) & Hnul & Hargs). cbn [Packet_MarshalBinary].
    destruct (Message_MarshalBinary_supported m (canonical_supported _ Hargs))
      as (_ & _ & Hm & _).
    eexists. split; [exact Hm|].
    pose proof (Message_MarshalBinary_aligned m _ Hm) as [Hal _].
    pose proof (NewMessageFromData_canonical m Hnul Hargs) as HN.
    remember (encodeString (Address m)
              ++ encodeString (","%byte :: flat_map tagOf (Arguments m))
              ++ flat_map payloadOf (Arguments m)) as data eqn:Ed.
    assert (Hfirst : exists tl, data = "/"%byte :: tl).
    { rewrite Ed, Haddr. unfold encodeString at 1. rewrite padTo32Bits_eq.
      cbn [app]. eexists. reflexivity. }
    destruct Hfirst as [tl Htl].
    rewrite (decodePacket_first data tl "/" Htl Hal), HN. reflexivity.
  - intro Hc. apply canonical_bundle in Hc. destruct Hc as [Ht Hels].
    rewrite Packet_MarshalBinary_bundle.
    destruct (marshalElements_canonical els IH Hels
                (bundleString ++ encodeTimeTag timeTag)) as (body & Hm & Hb).
    eexists. split; [exact Hm|].
    assert (Hal : len ((bundleString ++ encodeTimeTag timeTag) ++ body) mod 4
                  = 0).
    { eapply Packet_MarshalBinary_aligned.
      rewrite Packet_MarshalBinary_bundle. exact Hm. }
    assert (HN : NewBundleFromData
                   ((bundleString ++ encodeTimeTag timeTag) ++ body)
                 = (mkBundle timeTag els, Ok tt)).
    { unfold NewBundleFromData. rewrite <- app_assoc.
      rewrite <- (app_nil_r body).
      rewrite (Bundle_UnmarshalBinary_prefix NewBundle (encodeTimeTag timeTag)
                 body [] els (Ok els) (length_encodeTimeTag timeTag) Hb eq_refl).
      now rewrite timeTagOfUint64_encodeTimeTag. }
    assert (Hfirst : (bundleString ++ encodeTimeTag timeTag) ++ body
                     = "#"%byte
                       :: (str "bundle" ++ [x00]) ++ encodeTimeTag timeTag
                          ++ body)
      by (rewrite <- app_assoc; reflexivity).
    rewrite (decodePacket_first _ _ "#" Hfirst Hal), HN.
    reflexivity.
Qed.

(** X15. A canonical packet, a message or a bundle with its nested
    elements, is returned by [decodePacket] from the bytes that
    [MarshalBinary] writes for it, which [MarshalBinary] always does. *)
Theorem Packet_roundtrip (p : Packet) :
  canonical_packet p ->
  exists data, Packet_MarshalBinary p = Ok data /\ decodePacket data = Ok p.
Proof. apply decodePacket_MarshalBinary. Qed.

Lemma Packet_roundtrip_witness :
  exists data,
    Packet_MarshalBinary
      (PBundle (mkBundle NewImmediateTimeTag
                  [PMessage (mkMessage (str "/foo") [ArgBytes (str "arg")]);
                   PBundle NewBundle]))
    = Ok data
    /\ decodePacket data
       = Ok (PBundle (mkBundle NewImmediateTimeTag
                        [PMessage (mkMessage (str "/foo")
                                     [ArgBytes (str "arg")]);
                         PBundle NewBundle])).
Proof.
  apply (Packet_roundtrip
           (PBundle (mkBundle NewImmediateTimeTag
                       [PMessage (mkMessage (str "/foo") [ArgBytes (str "arg")]);
                        PBundle NewBundle]))).
  cbn [canonical_packet]. repeat split.
  - now left.
  - eexists. reflexivity.
  - cbn. intuition discriminate.
  - repeat constructor; cbn; try lia. discriminate.
  - intros encoded H. vm_compute in H. injection H as <-.
    vm_compute. reflexivity.
  - now left.
  - intros encoded H. vm_compute in H. injection H as <-.
    vm_compute. reflexivity.
Defined.

(** X16. What [decodePacket] accepts: the buffer has a length that is a
    multiple of 4; when a message comes out, the buffer and the address
    of the message start with '/' and the address holds no NUL; when a
    bundle comes out, the buffer starts with "#bundle\0". *)
Theorem decodePacket_ok_shape (data : list byte) (p : Packet) :
  decodePacket data = Ok p ->
  len data mod 4 = 0
  /\ match p with
     | PMessage m =>
         (exists tl, data = "/"%byte :: tl)
         /\ (exists rest, Address m = "/"%byte :: rest)
         /\ ~ In x00 (Address m)
     | PBundle _ => exists body, data = bundleString ++ body
     end.
Proof.
  rewrite decodePacket_eq.
  destruct (len data mod 4 =? 0) eqn:Em;
    [|rewrite orb_true_r; discriminate].
  apply Z.eqb_eq in Em. rewrite orb_false_r.
  destruct (len data <=? 0); [discriminate|].
  destruct data as [|c tl]; [discriminate|].
  destruct (Byte.eqb c "/") eqn:Ec.
  - apply eqb_byte_true in Ec. subst c.
    unfold NewMessageFromData, Buffer.NewBuffer.
    destruct (split_first x00 ("/"%byte :: tl)) as [Hn | (s & rest & E & Hs)].
    { rewrite decodeString_not_found by assumption. discriminate. }
    rewrite E, decodeString_found by assumption.
    destruct (popPadding (padding (len s + 1)) rest) as [[u buf]| |];
      cbn [bind]; try discriminate.
    cbn [Arguments Address].
    destruct (decodeString buf) as [[tts buf2]| |]; try discriminate.
    destruct (readArguments tts buf2) as [[args buf3]| |]; try discriminate.
    intro H. injection H as <-. cbn [Address]. rewrite <- E.
    split; [assumption|]. split; [eauto|]. split; [|assumption].
    destruct s as [|c0 s]; [discriminate|].
    injection E as <- _. eauto.
  - destruct (Byte.eqb c "#"); [|discriminate].
    destruct (NewBundleFromData (c :: tl)) as [b [[]|e|pn]] eqn:EB;
      try discriminate.
    intro H. injection H as <-. split; [assumption|].
    unfold NewBundleFromData in EB.
    apply Bundle_UnmarshalBinary_ok_inv in EB.
    destruct EB as (ttb & body & _ & _ & -> & _). eauto.
Qed.

Lemma decodePacket_ok_shape_witness :
  len (str "/" ++ [x00; x00; x00] ++ str "," ++ [x00; x00; x00]) mod 4 = 0
  /\ ((exists tl, str "/" ++ [x00; x00; x00] ++ str "," ++ [x00; x00; x00]
                  = "/"%byte :: tl)
      /\ (exists rest, Address NewEmptyMessage = "/"%byte :: rest)
      /\ ~ In x00 (Address NewEmptyMessage)).
Proof.
  apply (decodePacket_ok_shape
           (str "/" ++ [x00; x00; x00] ++ str "," ++ [x00; x00; x00])
           (PMessage NewEmptyMessage)).
  reflexivity.
Defined.

(** ** The address space *)

Section AddressSpaceProperties.

Variable World : Type.

Implicit Types (a : AddressSpace World) (h : Method World) (w : World).

Lemma dispatchLoop_filter (hs : list (Method World)) (m : Message) :
  forall w,
    dispatchLoop hs m w
    = fold_left (fun w' h => Function h m w')
                (filter (fun h => regexp.MatchString (method_regexp h)
                                                     (Address m)) hs) w.
Proof.
  induction hs as [|h hs IH]; intro w; [reflexivity|].
  cbn [dispatchLoop filter].
  destruct (regexp.MatchString (method_regexp h) (Address m));
    cbn [fold_left]; apply IH.
Qed.

Lemma dispatchLoop_app (hs1 hs2 : list (Method World)) (m : Message) w :
  dispatchLoop (hs1 ++ hs2) m w = dispatchLoop hs2 m (dispatchLoop hs1 m w).
Proof.
  rewrite !dispatchLoop_filter, filter_app, fold_left_app. reflexivity.
Qed.

(** X17. [Dispatch] runs the function of every method whose expression
    matches the address of the message, once each and in the order of
    registration, and of no other method; a nil message runs nothing.
    Dispatching over two registries put end to end is dispatching over
    the first and then over the second. *)
Theorem AddressSpace_Dispatch_spec a (m : Message) w :
  AddressSpace_Dispatch a (Some m) w
  = fold_left (fun w' h => Function h m w')
              (filter (fun h => regexp.MatchString (method_regexp h) (Address m))
                      (methods a)) w
  /\ AddressSpace_Dispatch a None w = w
  /\ forall hs1 hs2,
      methods a = hs1 ++ hs2 ->
      AddressSpace_Dispatch a (Some m) w
      = AddressSpace_Dispatch (mkAddressSpace hs2) (Some m)
          (AddressSpace_Dispatch (mkAddressSpace hs1) (Some m) w).
Proof.
  split; [|split].
  - apply dispatchLoop_filter.
  - reflexivity.
  - intros hs1 hs2 E. cbn [AddressSpace_Dispatch methods]. rewrite E.
    apply dispatchLoop_app.
Qed.

Lemma AddressSpace_Handle_cases a (pattern : gostring)
      (fn : MessageHandleFunc World) a' (r : result unit) :
  AddressSpace_Handle a pattern fn = Some (a', r) ->
  (exists re, addressPatternToRegexp pattern = Some (Ok re)
              /\ r = Ok tt
              /\ methods a' = methods a ++ [mkMethod pattern fn re])
  \/ (r <> Ok tt /\ a' = a).
Proof.
  unfold AddressSpace_Handle.
  destruct (addressPatternToRegexp pattern) as [[re|e|p]|]; try discriminate;
    intro H; injection H as <- <-.
  - left. exists re. auto.
  - right. split; [discriminate | reflexivity].
  - right. split; [discriminate | reflexivity].
Qed.

(** X18. A successful [Handle] keeps the methods registered so far, in
    their order, and puts the new one last: a dispatch in the new address
    space does what it did in the old one and then runs the new function
    if the compiled pattern matches the address. A [Handle] that fails
    leaves the address space as it was. *)
Theorem AddressSpace_Handle_spec a (pattern : gostring)
        (fn : MessageHandleFunc World) a' (r : result unit) :
  AddressSpace_Handle a pattern fn = Some (a', r) ->
  (r = Ok tt ->
   exists re,
     addressPatternToRegexp pattern = Some (Ok re)
     /\ methods a' = methods a ++ [mkMethod pattern fn re]
     /\ forall m w,
         AddressSpace_Dispatch a' (Some m) w
         = if regexp.MatchString re (Address m)
           then fn m (AddressSpace_Dispatch a (Some m) w)
           else AddressSpace_Dispatch a (Some m) w)
  /\ (r <> Ok tt -> a' = a).
Proof.
  intro H. apply AddressSpace_Handle_cases in H.
  destruct H as [(re & Hre & -> & Hm) | [Hr ->]].
  - split; [|congruence]. intros _. exists re. repeat split; auto.
    intros m w. cbn [AddressSpace_Dispatch]. rewrite Hm, dispatchLoop_app.
    cbn [dispatchLoop method_regexp Function].
    destruct (regexp.MatchString re (Address m)); reflexivity.
  - split; [contradiction | reflexivity].
Qed.

End AddressSpaceProperties.

Lemma AddressSpace_Handle_spec_witness :
  exists re,
    addressPatternToRegexp (str "/a/*") = Some (Ok re)
    /\ methods
         (mkAddressSpace
            [mkMethod (str "/a/*") (fun _ (w : nat) => S w)
               (regexp.Cat (regexp.Lit "/")
                  (regexp.Cat (regexp.Lit "a")
                     (regexp.Cat (regexp.Lit "/")
                        (regexp.Cat (regexp.Star regexp.AnyNotNL)
                           regexp.Empty))))])
       = methods (mkAddressSpace []) ++ [mkMethod (str "/a/*")
                                           (fun _ (w : nat) => S w) re]
    /\ forall m w,
        AddressSpace_Dispatch
          (mkAddressSpace
             [mkMethod (str "/a/*") (fun _ (w : nat) => S w)
                (regexp.Cat (regexp.Lit "/")
                   (regexp.Cat (regexp.Lit "a")
                      (regexp.Cat (regexp.Lit "/")
                         (regexp.Cat (regexp.Star regexp.AnyNotNL)
                            regexp.Empty))))])
          (Some m) w
        = if regexp.MatchString re (Address m)
          then S (AddressSpace_Dispatch (mkAddressSpace []) (Some m) w)
          else AddressSpace_Dispatch (mkAddressSpace []) (Some m) w.
Proof.
  apply (proj1 (AddressSpace_Handle_spec nat (mkAddressSpace []) (str "/a/*")
                  (fun _ (w : nat) => S w) _ (Ok tt) eq_refl) eq_refl).
Defined.

(** ** Matching is a search *)





Lemma AddressSpace_Dispatch_spec_witness :
  AddressSpace_Dispatch
    (mkAddressSpace
       [mkMethod (str "/a") (fun _ (w : list nat) => w ++ [1%nat]) regexp.Empty;
        mkMethod (str "/b") (fun _ (w : list nat) => w ++ [2%nat]) regexp.Empty])
    (Some NewEmptyMessage) []
  = AddressSpace_Dispatch
      (mkAddressSpace
         [mkMethod (str "/b") (fun _ (w : list nat) => w ++ [2%nat])
            regexp.Empty])
      (Some NewEmptyMessage)
      (AddressSpace_Dispatch
         (mkAddressSpace
            [mkMethod (str "/a") (fun _ (w : list nat) => w ++ [1%nat])
               regexp.Empty])
         (Some NewEmptyMessage) []).
Proof.
  apply (proj2 (proj2 (AddressSpace_Dispatch_spec (list nat)
                         (mkAddressSpace
                            [mkMethod (str "/a")
                               (fun _ (w : list nat) => w ++ [1%nat])
                               regexp.Empty;
                             mkMethod (str "/b")
                               (fun _ (w : list nat) => w ++ [2%nat])
                               regexp.Empty])
                         NewEmptyMessage []))).
  reflexivity.
Defined.

(** ** The transports *)

Section TransportProperties.

Variable World : Type.

Implicit Types (a : AddressSpace World) (w : World).

Lemma decodePacket_unaligned (data : list byte) :
  len data mod 4 <> 0 ->
  decodePacket data = Err (Errorf "Packet data is not a multiple of 4 bytes").
Proof.
  intro H. rewrite decodePacket_eq.
  assert ((len data mod 4 =? 0) = false) as -> by now apply Z.eqb_neq.
  now rewrite orb_true_r.
Qed.


(** X21. [TCPServer.handleIncomingData] never runs a method: the packet
    decoder is given the last three bytes of the data, which it rejects
    for their length. Data of fewer than three bytes, or a slice of
    capacity below four, make the call panic. *)
Theorem TCPServer_handleIncomingData_spec a (data : list byte)
        (capacity : nat) w :
  TCPServer_handleIncomingData a data capacity w
  = if Nat.ltb capacity 4 || Nat.ltb (length data) 3
    then Panic SliceBoundsOutOfRange
    else Ok w.
Proof.
  unfold TCPServer_handleIncomingData.
  destruct (Nat.ltb capacity 4); [reflexivity|]. cbn [orb].
  destruct (Nat.ltb (length data) 3) eqn:E.
  - apply Nat.ltb_lt in E.
    assert ((len data - 3 <? 0) = true) as ->
        by (apply Z.ltb_lt; unfold len; lia).
    reflexivity.
  - apply Nat.ltb_ge in E.
    assert ((len data - 3 <? 0) = false) as ->
        by (apply Z.ltb_ge; unfold len; lia).
    rewrite decodePacket_unaligned; [reflexivity|].
    unfold len. rewrite length_skipn.
    replace (length data - (length data - 3))%nat with 3%nat by lia.
    discriminate.
Qed.






(** X24. A length above 65535 makes [responseReaderLoop] panic: the slice
    of the 65535-byte buffer that is to receive the packet is out of
    bounds. *)
Theorem TCPClient_responseReaderLoop_oversize a (cnt rest : list byte) w :
  length cnt = 4%nat -> 65535 < be_uint cnt ->
  TCPClient_responseReaderLoop a (cnt ++ rest) w
  = Panic SliceBoundsOutOfRange.
Proof.
  intros Hc Hbig. unfold TCPClient_responseReaderLoop.
  cbn [responseReaderLoop]. rewrite ReadUint32_app by assumption.
  assert ((65535 <? be_uint cnt) = true) as -> by now apply Z.ltb_lt.
  reflexivity.
Qed.

End TransportProperties.




Lemma TCPClient_responseReaderLoop_oversize_witness :
  TCPClient_responseReaderLoop (mkAddressSpace [])
    ([x00; x01; x00; x00] ++ [x2f]) 0%nat
  = Panic SliceBoundsOutOfRange.
Proof.
  apply (TCPClient_responseReaderLoop_oversize nat (mkAddressSpace [])
           [x00; x01; x00; x00] [x2f] 0%nat).
  - reflexivity.
  - vm_compute. reflexivity.
Defined.

(** ** Address parts *)

Lemma strings_Join_cons (p : gostring) (ps : list gostring) (sep : gostring) :
  ps <> [] -> strings_Join (p :: ps) sep = p ++ sep ++ strings_Join ps sep.
Proof. destruct ps; [contradiction | reflexivity]. Qed.

Lemma HasPrefix_nil (s : gostring) : strings.HasPrefix s [] = true.
Proof. destruct s; reflexivity. Qed.

Lemma split_from_spec (c : byte) (fuel : nat) :
  forall s cur,
    (length s <= fuel)%nat -> ~ In c cur ->
    strings_Join (split_from fuel s [c] cur) [c] = cur ++ s
    /\ Forall (fun part => ~ In c part) (split_from fuel s [c] cur)
    /\ length (split_from fuel s [c] cur)
       = S (count_occ Byte.byte_eq_dec s c)
    /\ split_from fuel s [c] cur <> [].
Proof.
  induction fuel as [|fuel IH]; intros s cur Hl Hcur.
  - destruct s; [|cbn [length] in Hl; lia]. cbn [split_from strings_Join].
    rewrite app_nil_r. repeat split; auto. discriminate.
  - destruct s as [|b s]; cbn [split_from].
    + cbn [strings_Join]. rewrite app_nil_r. repeat split; auto. discriminate.
    + cbn [strings.HasPrefix]. rewrite HasPrefix_nil, andb_true_r.
      cbn [length] in Hl.
      destruct (Byte.eqb c b) eqn:E.
      * apply eqb_byte_true in E. subst b. cbn [length skipn].
        destruct (IH s [] ltac:(lia) ltac:(auto)) as (Hj & Hf & Hn & Hne).
        rewrite strings_Join_cons, Hj by assumption.
        cbn [app length]. rewrite Hn, count_occ_cons_eq by reflexivity.
        repeat split; auto. discriminate.
      * apply eqb_byte_false in E.
        assert (Hcur' : ~ In c (cur ++ [b])).
        { intro H. apply in_app_or in H. destruct H as [H | [H | []]]; auto. }
        destruct (IH s (cur ++ [b]) ltac:(lia) Hcur') as (Hj & Hf & Hn & Hne).
        rewrite Hj, Hn, <- app_assoc, count_occ_cons_neq by auto.
        repeat split; auto.
Qed.

(** X25. The parts that [AddressParts] returns hold no '/', are one more
    than the slashes of the address, and give the address back when
    joined by '/': an address that starts with '/' has an empty first
    part. *)
Theorem Message_AddressParts_spec (msg : Message) :
  strings_Join (Message_AddressParts msg) (str "/") = Address msg
  /\ Forall (fun part => ~ In "/"%byte part) (Message_AddressParts msg)
  /\ length (Message_AddressParts msg)
     = S (count_occ Byte.byte_eq_dec (Address msg) "/"%byte).
Proof.
  unfold Message_AddressParts, strings_Split.
  destruct (split_from_spec "/" (length (Address msg)) (Address msg) []
              (le_n _) ltac:(auto)) as (Hj & Hf & Hn & _).
  auto.
Qed.

(** ** Bytes after the last argument *)

(** X26. [Message.UnmarshalBinary] does not look at what follows the last
    argument: the bytes of a canonical message followed by any bytes at
    all decode to that message. *)
Theorem Message_UnmarshalBinary_trailing (m msg : Message) (junk : list byte) :
  ~ In x00 (Address m) -> Forall canonical (Arguments m) ->
  exists data,
    Message_MarshalBinary m = Ok data
    /\ Message_UnmarshalBinary msg (data ++ junk) = (m, Ok tt).
Proof.
  intros Ha Hargs.
  destruct (Message_MarshalBinary_supported m (canonical_supported _ Hargs))
    as (_ & _ & Hm & _).
  eexists. split; [exact Hm|].
  destruct m as [address args]. cbn [Address Arguments] in *.
  unfold Message_UnmarshalBinary, Buffer.NewBuffer.
  rewrite <- !app_assoc, decodeString_encodeString by assumption.
  rewrite decodeString_encodeString.
  - unfold readArguments.
    rewrite (Byte.byte_dec_lb (x := ","%byte) eq_refl). cbn [negb].
    now rewrite readArgumentsLoop_canonical.
  - intros [H|H]; [discriminate|]. now apply tags_no_NUL in H.
Qed.

Lemma Message_UnmarshalBinary_trailing_witness :
  exists data,
    Message_MarshalBinary (mkMessage (str "/foo") [ArgInt32 7]) = Ok data
    /\ Message_UnmarshalBinary NewEmptyMessage (data ++ [xff; xff; xff])
       = (mkMessage (str "/foo") [ArgInt32 7], Ok tt).
Proof.
  apply (Message_UnmarshalBinary_trailing
           (mkMessage (str "/foo") [ArgInt32 7]) NewEmptyMessage
           [xff; xff; xff]).
  - cbn. intuition discriminate.
  - repeat constructor; cbn; lia.
Defined.
